(** * Orbit troubleshooting view: provider-event reconciliation

    A shallow embedding of the reconciliation pipeline and of the
    link/unlink mutation handlers of [TroubleshootModal]
    (ui/src/components/sync/troubleshoot-modal.tsx), together with the
    properties the specification states about them.

    Conventions.
    - A JavaScript [string | null | undefined] is an [option string];
      truthiness of such a value is [truthy].
    - Timestamps (results of [Date.parse]) are integers of type [Z];
      [NaN] is [None].
    - A JavaScript [Map] that is only read by key is a [gmap]; the [Map]
      whose iteration order is observed ([Array.from(map.values())]) is
      an association list kept in insertion order ([jsmap]).
    - The plain object [providerLookup] is not built here: the pipeline
      takes the result of its bracket reads as a parameter ([providers]).
    - [Array.prototype.sort] is a stable sort driven by the sign of the
      comparator. *)

From Stdlib Require Import ZArith Bool List Permutation Sorted Lia.
From stdpp Require Import gmap strings list fin_maps.

Local Open Scope Z_scope.

(** ** JavaScript helpers *)

(** Truthiness of a [string | null | undefined]. *)
Definition truthy (v : option string) : bool :=
  match v with
  | Some s => negb (String.eqb s "")
  | None => false
  end.

(** [a ?? b] *)
Definition nullish {A} (a : option A) (b : A) : A :=
  match a with Some x => x | None => b end.

(** [a ?? b] where [b] may itself be absent. *)
Definition nullish_opt {A} (a b : option A) : option A :=
  match a with Some x => Some x | None => b end.

(** [a || b] on strings: the empty string is falsy. *)
Definition str_or (a b : string) : string :=
  if String.eqb a "" then b else a.

(** [s === o] for a string [s] and a [string | null | undefined] [o]. *)
Definition strict_eq (s : string) (o : option string) : bool :=
  match o with Some t => String.eqb s t | None => false end.

(** Whether the character [c] occurs in [s]. *)
Fixpoint has_char (c : Ascii.ascii) (s : string) : bool :=
  match s with
  | EmptyString => false
  | String c' s' => Ascii.eqb c c' || has_char c s'
  end.

(** ** API types (ui/src/types/api.ts) *)

Record ProviderEventRecord := {
  rec_orbit_event_id : option string;
  rec_provider_event_id : string;
  rec_provider_id : string;
  rec_provider_name : string;
  rec_title : string;
  rec_start : option string;
  rec_end : option string;
  rec_last_updated : option string;
  rec_provider_last_seen : option string;
  rec_tombstoned : bool
}.

Record SyncEventSummary := {
  ev_id : string;
  ev_title : string;
  ev_start : option string;
  ev_source_provider_id : option string;
  ev_target_provider_id : option string;
  ev_occurred_at : option string
}.

Record SyncEndpointSummary := {
  ep_provider_id : string;
  ep_provider_name : string;
  ep_provider_type : string;
  ep_role : string;
  ep_enabled : bool
}.

Record Provider := {
  prov_id : string;
  prov_type_id : string;
  prov_name : string;
  prov_enabled : bool
}.

(** ** Types local to the modal *)

Record ProviderPanelState := {
  panel_data : list ProviderEventRecord;
  panel_loading : bool;
  panel_error : option string
}.

Record LinkEditorState := {
  le_providerId : string;
  le_providerEventId : string;
  le_currentOrbitId : option string
}.

Inductive DirectionLabel := Inbound | Outbound | Unmapped.

Record GroupMember := {
  mem_key : string;
  mem_providerId : string;
  mem_providerName : string;
  mem_endpoint : option SyncEndpointSummary;
  mem_record : ProviderEventRecord;
  mem_directionLabel : DirectionLabel;
  mem_directionText : string;
  mem_duplicateCount : nat;
  mem_orbitLinkCount : nat;
  mem_tombstoned : bool
}.

Record TroubleshootGroup := {
  grp_key : string;
  grp_orbitEventId : option string;
  grp_title : string;
  grp_start : option string;
  grp_orbitOccurredAt : option string;
  grp_suspectCollision : bool;
  grp_providerCount : nat;
  grp_latestTimestamp : Z;
  grp_members : list GroupMember
}.

(** ** Insertion-ordered maps ([Map] whose iteration order is observed) *)

Section JsMap.
Context {V : Type}.

Definition jsmap := list (string * V).

Fixpoint jsmap_get (k : string) (m : jsmap) : option V :=
  match m with
  | [] => None
  | (k', v) :: m' => if String.eqb k k' then Some v else jsmap_get k m'
  end.

(** [map.set(k, v)]: an existing key keeps its position. *)
Fixpoint jsmap_set (k : string) (v : V) (m : jsmap) : jsmap :=
  match m with
  | [] => [(k, v)]
  | (k', v') :: m' =>
      if String.eqb k k' then (k', v) :: m' else (k', v') :: jsmap_set k v m'
  end.

(** In-place mutation of the object stored under [k]. *)
Fixpoint jsmap_alter (f : V -> V) (k : string) (m : jsmap) : jsmap :=
  match m with
  | [] => []
  | (k', v) :: m' =>
      if String.eqb k k' then (k', f v) :: m' else (k', v) :: jsmap_alter f k m'
  end.

(** [Array.from(map.values())] *)
Definition jsmap_values (m : jsmap) : list V := snd <$> m.
Definition jsmap_keys (m : jsmap) : list string := fst <$> m.
End JsMap.
Arguments jsmap : clear implicits.

(** ** [Array.prototype.sort]

    ECMAScript requires the sort to be stable; with a comparator [cmp],
    [a] stays before [b] when [cmp a b <= 0].  The model is the stable
    insertion sort. *)

Section ArraySort.
Context {A : Type} (cmp : A -> A -> Z).

Fixpoint sort_insert (x : A) (l : list A) : list A :=
  match l with
  | [] => [x]
  | y :: l' => if cmp x y <=? 0 then x :: y :: l' else y :: sort_insert x l'
  end.

Fixpoint Array_sort (l : list A) : list A :=
  match l with
  | [] => []
  | x :: l' => sort_insert x (Array_sort l')
  end.

(** [a] may stay in front of [b]. *)
Definition before (a b : A) : Prop := cmp a b <= 0.

(** Elements the comparator does not tell apart. *)
Definition tied (a x : A) : bool := (cmp a x <=? 0) && (cmp x a <=? 0).
End ArraySort.

(** ** The reconciliation pipeline *)

Section Reconciliation.
(** [Date.parse]; [None] stands for [NaN]. *)
Variable Date_parse : string -> option Z.
(** [formatProviderName] of lib/providers. *)
Variable formatProviderName : string -> string.
(** [String.prototype.localeCompare]. *)
Variable localeCompare : string -> string -> Z.

Definition parseTimestamp (value : option string) : Z :=
  match value with
  | None => 0
  | Some s =>
      if String.eqb s "" then 0
      else match Date_parse s with
           | None => 0
           | Some parsed => parsed
           end
  end.

(** [endpointsByProvider] and [flowByOrbit], both a [Map]; later entries
    for the same key win. *)
Definition endpointsByProvider (endpoints : list SyncEndpointSummary)
  : gmap string SyncEndpointSummary :=
  fold_left (fun m endpoint => <[ep_provider_id endpoint := endpoint]> m) endpoints ∅.

Definition flowByOrbit (flowEvents : list SyncEventSummary)
  : gmap string SyncEventSummary :=
  fold_left (fun m event => <[ev_id event := event]> m) flowEvents ∅.

(** [allRecords]: the rows of every configured provider, in the order of
    [providerIds]. *)
Definition allRecords (providerIds : list string)
    (providerEvents : gmap string ProviderPanelState)
  : list (string * ProviderEventRecord) :=
  flat_map (fun providerId =>
              match providerEvents !! providerId with
              | Some panel => map (fun record => (providerId, record)) (panel_data panel)
              | None => []
              end) providerIds.

Definition countKey (providerId : string) (record : ProviderEventRecord) : string :=
  providerId +:+ "::" +:+ rec_provider_event_id record.

Definition providerEventCounts (rows : list (string * ProviderEventRecord))
  : gmap string nat :=
  fold_left (fun counts row =>
               let key := countKey (fst row) (snd row) in
               <[key := (nullish (counts !! key) 0 + 1)%nat]> counts) rows ∅.

Definition orbitMembership (rows : list (string * ProviderEventRecord))
  : gmap string (gset string) :=
  fold_left (fun m row =>
               if truthy (rec_orbit_event_id (snd row)) then
                 match rec_orbit_event_id (snd row) with
                 | Some orbitId =>
                     <[orbitId := nullish (m !! orbitId) ∅ ∪ {[fst row]}]> m
                 | None => m
                 end
               else m) rows ∅.

Definition orbitMembershipCounts (rows : list (string * ProviderEventRecord))
  : gmap string nat :=
  size <$> orbitMembership rows.

Definition groupKey (providerId : string) (record : ProviderEventRecord) : string :=
  match rec_orbit_event_id record with
  | Some orbitId => orbitId
  | None => "unlinked:" +:+ providerId +:+ ":" +:+ rec_provider_event_id record
  end.

Section Groups.
Variable endpoints : gmap string SyncEndpointSummary.
(** What a read [providerLookup[id]] finds.  [providerLookup] is a plain
    object filled by assignment and read with brackets, so a read may find
    an entry stored for a provider or a member inherited from the object's
    prototype; the pipeline uses only the [name] of what is found, and
    [providers !! id = Some p] says that this name is [prov_name p]. *)
Variable providers : gmap string Provider.
Variable flows : gmap string SyncEventSummary.
Variable rows : list (string * ProviderEventRecord).

(** [record.orbit_event_id ? flowByOrbit.get(record.orbit_event_id) : undefined] *)
Definition flowOf (record : ProviderEventRecord) : option SyncEventSummary :=
  if truthy (rec_orbit_event_id record) then
    match rec_orbit_event_id record with
    | Some orbitId => flows !! orbitId
    | None => None
    end
  else None.

(** The name shown for the provider on the other side of a flow. *)
Definition counterpartOf (otherId : string) : string :=
  str_or
    (formatProviderName
       (nullish
          (nullish_opt (ep_provider_name <$> endpoints !! otherId)
                       (prov_name <$> providers !! otherId))
          otherId))
    otherId.

Definition resolveDirection (providerId : string) (flow : option SyncEventSummary)
  : DirectionLabel * option string :=
  match flow with
  | None => (Unmapped, None)
  | Some flow =>
      if strict_eq providerId (ev_source_provider_id flow) then
        (Outbound,
         if truthy (ev_target_provider_id flow)
         then counterpartOf <$> ev_target_provider_id flow
         else None)
      else if strict_eq providerId (ev_target_provider_id flow) then
        (Inbound,
         if truthy (ev_source_provider_id flow)
         then counterpartOf <$> ev_source_provider_id flow
         else None)
      else (Unmapped, None)
  end.

Definition directionText (label : DirectionLabel) (counterpartName : option string)
  : string :=
  match label with
  | Unmapped => "Unmapped"
  | Outbound =>
      if truthy counterpartName
      then "Outbound → " +:+ nullish counterpartName ""
      else "Outbound"
  | Inbound =>
      if truthy counterpartName
      then "Inbound ← " +:+ nullish counterpartName ""
      else "Inbound"
  end.

Definition memberName (providerId : string) : string :=
  str_or
    (formatProviderName
       (nullish
          (nullish_opt (prov_name <$> providers !! providerId)
                       (ep_provider_name <$> endpoints !! providerId))
          providerId))
    providerId.

Definition buildMember (providerId : string) (record : ProviderEventRecord)
  : GroupMember :=
  let direction := resolveDirection providerId (flowOf record) in
  {| mem_key := providerId +:+ "-" +:+ rec_provider_event_id record +:+ "-"
                  +:+ nullish (rec_orbit_event_id record) "unlinked";
     mem_providerId := providerId;
     mem_providerName := memberName providerId;
     mem_endpoint := endpoints !! providerId;
     mem_record := record;
     mem_directionLabel := fst direction;
     mem_directionText := directionText (fst direction) (snd direction);
     mem_duplicateCount :=
       nullish (providerEventCounts rows !! countKey providerId record) 0%nat;
     mem_orbitLinkCount :=
       if truthy (rec_orbit_event_id record) then
         match rec_orbit_event_id record with
         | Some orbitId => nullish (orbitMembershipCounts rows !! orbitId) 0%nat
         | None => 0%nat
         end
       else 0%nat;
     mem_tombstoned := rec_tombstoned record |}.

(** [Math.max] of the three timestamps a record contributes. *)
Definition recordTimestamp (record : ProviderEventRecord) : Z :=
  Z.max (Z.max (parseTimestamp (rec_last_updated record))
               (parseTimestamp (rec_start record)))
        (parseTimestamp (flowOf record ≫= ev_occurred_at)).

(** [group.latestTimestamp = Math.max(group.latestTimestamp, ...)] *)
Definition touchGroup (ts : Z) (group : TroubleshootGroup) : TroubleshootGroup :=
  {| grp_key := grp_key group;
     grp_orbitEventId := grp_orbitEventId group;
     grp_title := grp_title group;
     grp_start := grp_start group;
     grp_orbitOccurredAt := grp_orbitOccurredAt group;
     grp_suspectCollision := grp_suspectCollision group;
     grp_providerCount := grp_providerCount group;
     grp_latestTimestamp := Z.max (grp_latestTimestamp group) ts;
     grp_members := grp_members group |}.

(** [group.members.push(member)] *)
Definition pushMember (member : GroupMember) (group : TroubleshootGroup)
  : TroubleshootGroup :=
  {| grp_key := grp_key group;
     grp_orbitEventId := grp_orbitEventId group;
     grp_title := grp_title group;
     grp_start := grp_start group;
     grp_orbitOccurredAt := grp_orbitOccurredAt group;
     grp_suspectCollision := grp_suspectCollision group;
     grp_providerCount := grp_providerCount group;
     grp_latestTimestamp := grp_latestTimestamp group;
     grp_members := grp_members group ++ [member] |}.

(** The object stored on the first encounter of a key. *)
Definition newGroup (providerId : string) (record : ProviderEventRecord)
  : TroubleshootGroup :=
  {| grp_key := groupKey providerId record;
     grp_orbitEventId := rec_orbit_event_id record;
     grp_title := rec_title record;
     grp_start := rec_start record;
     grp_orbitOccurredAt := flowOf record ≫= ev_occurred_at;
     grp_suspectCollision := false;
     grp_providerCount := 0;
     grp_latestTimestamp := recordTimestamp record;
     grp_members := [] |}.

(** One iteration of [allRecords.forEach] in [groups]. *)
Definition visit (m : jsmap TroubleshootGroup) (row : string * ProviderEventRecord)
  : jsmap TroubleshootGroup :=
  let providerId := fst row in
  let record := snd row in
  let key := groupKey providerId record in
  let m1 :=
    match jsmap_get key m with
    | None => jsmap_set key (newGroup providerId record) m
    | Some _ => jsmap_alter (touchGroup (recordTimestamp record)) key m
    end in
  jsmap_alter (pushMember (buildMember providerId record)) key m1.

Definition workingGroups : jsmap TroubleshootGroup :=
  fold_left visit rows [].

Definition memberCompare (a b : GroupMember) : Z :=
  localeCompare (mem_providerName a) (mem_providerName b).

(** The callback of [.map] after the loop.  Sorting the members with an
    inconsistent [localeCompare] may give any order, but always a
    rearrangement of the members. *)
Definition finalize (group : TroubleshootGroup) : TroubleshootGroup :=
  let members := Array_sort memberCompare (grp_members group) in
  let providerSet : gset string := list_to_set (mem_providerId <$> members) in
  let hasDuplicates :=
    existsb (fun member => (1 <? mem_duplicateCount member)%nat) members in
  let suspectCollision := (1 <? length members)%nat || hasDuplicates in
  {| grp_key := grp_key group;
     grp_orbitEventId := grp_orbitEventId group;
     grp_title := grp_title group;
     grp_start := grp_start group;
     grp_orbitOccurredAt := grp_orbitOccurredAt group;
     grp_suspectCollision := suspectCollision;
     grp_providerCount := size providerSet;
     grp_latestTimestamp := grp_latestTimestamp group;
     grp_members := members |}.

(** The comparator of the final [.sort]. *)
Definition groupCompare (a b : TroubleshootGroup) : Z :=
  if negb (Bool.eqb (grp_suspectCollision a) (grp_suspectCollision b)) then
    if grp_suspectCollision a then -1 else 1
  else grp_latestTimestamp b - grp_latestTimestamp a.

(** [Array.from(map.values()).map(...)], before the final sort. *)
Definition unsortedGroups : list TroubleshootGroup :=
  finalize <$> jsmap_values workingGroups.

Definition groups : list TroubleshootGroup :=
  Array_sort groupCompare unsortedGroups.
End Groups.
End Reconciliation.

(** ** Link targets offered by the editor *)

Record OrbitOption := { opt_id : string; opt_label : string }.

(** [value.slice(-visible)] for [visible <= value.length]. *)
Definition slice_last (visible : nat) (value : string) : string :=
  String.substring (String.length value - visible) visible value.

Definition shortenId (value : string) (visible : nat) : string :=
  if (String.length value <=? visible * 2 + 3)%nat then value
  else String.substring 0 visible value +:+ "..." +:+ slice_last visible value.

Definition orbitOptions (gs : list TroubleshootGroup) : list OrbitOption :=
  let seen :=
    fold_left (fun (seen : jsmap string) group =>
                 if truthy (grp_orbitEventId group) then
                   match grp_orbitEventId group with
                   | Some orbitId =>
                       match jsmap_get orbitId seen with
                       | Some _ => seen
                       | None =>
                           jsmap_set orbitId
                             (if String.eqb (grp_title group) ""
                              then "Orbit " +:+ shortenId orbitId 6
                              else grp_title group) seen
                       end
                   | None => seen
                   end
                 else seen) gs [] in
  map (fun entry => {| opt_id := fst entry; opt_label := snd entry |}) seen.

(** ** Component state and the fetch effect *)

Inductive ActionType := ActLink | ActUnlink.

Definition ActionType_eqb (a b : ActionType) : bool :=
  match a, b with
  | ActLink, ActLink | ActUnlink, ActUnlink => true
  | _, _ => false
  end.

Record ModalState := {
  st_providerEvents : gmap string ProviderPanelState;
  st_refreshTick : nat;
  st_actionError : option string;
  st_actionState : option (ActionType * string);
  st_linkEditor : option LinkEditorState;
  st_linkTargetOrbit : string
}.

Definition setProviderEvents (f : gmap string ProviderPanelState -> gmap string ProviderPanelState)
    (s : ModalState) : ModalState :=
  {| st_providerEvents := f (st_providerEvents s);
     st_refreshTick := st_refreshTick s;
     st_actionError := st_actionError s;
     st_actionState := st_actionState s;
     st_linkEditor := st_linkEditor s;
     st_linkTargetOrbit := st_linkTargetOrbit s |}.

Definition setRefreshTick (f : nat -> nat) (s : ModalState) : ModalState :=
  {| st_providerEvents := st_providerEvents s;
     st_refreshTick := f (st_refreshTick s);
     st_actionError := st_actionError s;
     st_actionState := st_actionState s;
     st_linkEditor := st_linkEditor s;
     st_linkTargetOrbit := st_linkTargetOrbit s |}.

Definition setActionError (v : option string) (s : ModalState) : ModalState :=
  {| st_providerEvents := st_providerEvents s;
     st_refreshTick := st_refreshTick s;
     st_actionError := v;
     st_actionState := st_actionState s;
     st_linkEditor := st_linkEditor s;
     st_linkTargetOrbit := st_linkTargetOrbit s |}.

Definition setActionState (v : option (ActionType * string)) (s : ModalState) : ModalState :=
  {| st_providerEvents := st_providerEvents s;
     st_refreshTick := st_refreshTick s;
     st_actionError := st_actionError s;
     st_actionState := v;
     st_linkEditor := st_linkEditor s;
     st_linkTargetOrbit := st_linkTargetOrbit s |}.

Definition setLinkEditor (v : option LinkEditorState) (s : ModalState) : ModalState :=
  {| st_providerEvents := st_providerEvents s;
     st_refreshTick := st_refreshTick s;
     st_actionError := st_actionError s;
     st_actionState := st_actionState s;
     st_linkEditor := v;
     st_linkTargetOrbit := st_linkTargetOrbit s |}.

Definition setLinkTargetOrbit (v : string) (s : ModalState) : ModalState :=
  {| st_providerEvents := st_providerEvents s;
     st_refreshTick := st_refreshTick s;
     st_actionError := st_actionError s;
     st_actionState := st_actionState s;
     st_linkEditor := st_linkEditor s;
     st_linkTargetOrbit := v |}.

(** [err instanceof Error ? err.message : fallback]; a rejection carries
    [Some message] when the thrown value is an [Error]. *)
Definition errorMessage (err : option string) (fallback : string) : string :=
  nullish err fallback.

(** The synchronous prologue of the fetch effect: every configured
    provider is marked loading and keeps the rows it already has. *)
Definition markLoading (providerIds : list string) (s : ModalState) : ModalState :=
  fold_left (fun s id =>
               setProviderEvents (fun prev =>
                 <[id := {| panel_data := nullish (panel_data <$> prev !! id) [];
                            panel_loading := true;
                            panel_error := None |}]> prev) s) providerIds s.

Inductive FetchOutcome :=
| FetchResolved (events : list ProviderEventRecord)
| FetchRejected (err : option string).

(** The continuation of one provider's [client.syncProviderEvents] call
    inside [load]; [cancelled] is the flag of the effect's clean-up. *)
Definition settleFetch (cancelled : bool) (providerId : string) (outcome : FetchOutcome)
    (s : ModalState) : ModalState :=
  if cancelled then s
  else match outcome with
       | FetchResolved events =>
           setProviderEvents (fun prev =>
             <[providerId := {| panel_data := events;
                                panel_loading := false;
                                panel_error := None |}]> prev) s
       | FetchRejected err =>
           setProviderEvents (fun prev =>
             <[providerId := {| panel_data := nullish (panel_data <$> prev !! providerId) [];
                                panel_loading := false;
                                panel_error :=
                                  Some (errorMessage err "Failed to load provider events") |}]>
               prev) s
       end.

(** [providerErrors]: the truthy per-provider messages. *)
Definition providerErrors (providerIds : list string) (s : ModalState) : list string :=
  omap (fun id =>
          match st_providerEvents s !! id ≫= panel_error with
          | Some message => if String.eqb message "" then None else Some message
          | None => None
          end) providerIds.

(** The rows the group computation runs over in state [s]. *)
Definition snapshot (providerIds : list string) (s : ModalState)
  : list (string * ProviderEventRecord) :=
  allRecords providerIds (st_providerEvents s).

(** ** Link and unlink handlers

    An [async] handler runs synchronously up to its [await], where it has
    issued one request; the rest runs when the request settles.  [World]
    keeps the component state, the requests issued so far (oldest first)
    and the suspended handlers with the values their closures captured. *)

Inductive Request :=
| ReqLink (providerId providerEventId orbitId : string)
| ReqUnlink (providerId providerEventId : string).

Definition Request_eqb (a b : Request) : bool :=
  match a, b with
  | ReqLink p e o, ReqLink p' e' o' => String.eqb p p' && String.eqb e e' && String.eqb o o'
  | ReqUnlink p e, ReqUnlink p' e' => String.eqb p p' && String.eqb e e'
  | _, _ => false
  end.

Record Suspended := {
  susp_request : Request;
  susp_linkEditor : option LinkEditorState
}.

Record World := {
  w_state : ModalState;
  w_network : list Request;
  w_pending : list Suspended
}.

Definition onState (f : ModalState -> ModalState) (w : World) : World :=
  {| w_state := f (w_state w); w_network := w_network w; w_pending := w_pending w |}.

(** Issue [request] and suspend the handler at its [await]. *)
Definition await (request : Request) (w : World) : World :=
  {| w_state := w_state w;
     w_network := w_network w ++ [request];
     w_pending := w_pending w
                    ++ [{| susp_request := request;
                           susp_linkEditor := st_linkEditor (w_state w) |}] |}.

Inductive Outcome :=
| Resolved
| Rejected (err : option string).

Definition actionKey (providerId providerEventId : string) : string :=
  providerId +:+ "-" +:+ providerEventId.

Definition isActionLoading (type : ActionType) (key : string) (s : ModalState) : bool :=
  match st_actionState s with
  | Some (type', key') => ActionType_eqb type' type && String.eqb key' key
  | None => false
  end.

Definition startLink (options : list OrbitOption)
    (providerId providerEventId : string) (currentOrbitId : option string)
    (s : ModalState) : ModalState :=
  match List.filter (fun option => negb (strict_eq (opt_id option) currentOrbitId)) options with
  | [] => setActionError (Some "No other Orbit events available to link.") s
  | first :: _ =>
      setLinkTargetOrbit (opt_id first)
        (setLinkEditor (Some {| le_providerId := providerId;
                                le_providerEventId := providerEventId;
                                le_currentOrbitId := currentOrbitId |})
           (setActionError None s))
  end.

Definition cancelLink (s : ModalState) : ModalState :=
  setLinkTargetOrbit "" (setLinkEditor None s).

(** [submitLink] up to its [await]. *)
Definition submitLink (w : World) : World :=
  match st_linkEditor (w_state w) with
  | None => w
  | Some linkEditor =>
      let linkTargetOrbit := st_linkTargetOrbit (w_state w) in
      if String.eqb linkTargetOrbit ""
         || strict_eq linkTargetOrbit (le_currentOrbitId linkEditor)
      then onState (setActionError (Some "Select a different Orbit event to link.")) w
      else
        await (ReqLink (le_providerId linkEditor) (le_providerEventId linkEditor) linkTargetOrbit)
          (onState (fun s =>
                      setActionError None
                        (setActionState
                           (Some (ActLink, actionKey (le_providerId linkEditor)
                                                     (le_providerEventId linkEditor))) s)) w)
  end.

(** [unlinkProviderEvent] up to its [await]. *)
Definition unlinkProviderEvent (providerId providerEventId : string) (w : World) : World :=
  await (ReqUnlink providerId providerEventId)
    (onState (fun s =>
                setActionError None
                  (setActionState (Some (ActUnlink, actionKey providerId providerEventId)) s)) w).

(** The part of a handler after its [await]: [try] tail, [catch],
    [finally]. *)
Definition resume (k : Suspended) (outcome : Outcome) (s : ModalState) : ModalState :=
  match susp_request k, outcome with
  | ReqLink _ _ _, Resolved =>
      setActionState None
        (setRefreshTick (fun tick => (tick + 1)%nat)
           (setLinkTargetOrbit "" (setLinkEditor None s)))
  | ReqLink _ _ _, Rejected err =>
      setActionState None
        (setActionError (Some (errorMessage err "Failed to relink provider event")) s)
  | ReqUnlink providerId providerEventId, Resolved =>
      let s1 :=
        match susp_linkEditor k with
        | Some linkEditor =>
            if String.eqb (le_providerId linkEditor) providerId
               && String.eqb (le_providerEventId linkEditor) providerEventId
            then cancelLink s else s
        | None => s
        end in
      setActionState None (setRefreshTick (fun tick => (tick + 1)%nat) s1)
  | ReqUnlink _ _, Rejected err =>
      setActionState None
        (setActionError (Some (errorMessage err "Failed to unlink provider event")) s)
  end.

(** The [n]-th suspended handler's request settles. *)
Definition settle (n : nat) (outcome : Outcome) (w : World) : World :=
  match w_pending w !! n with
  | None => w
  | Some k =>
      {| w_state := resume k outcome (w_state w);
         w_network := w_network w;
         w_pending := take n (w_pending w) ++ drop (S n) (w_pending w) |}
  end.

(** *** The controls of a member's row

    A disabled button does not fire its [onClick]. *)

Definition unlinkDisabled (member : GroupMember) (s : ModalState) : bool :=
  negb (truthy (rec_orbit_event_id (mem_record member)))
  || isActionLoading ActUnlink
       (actionKey (mem_providerId member) (rec_provider_event_id (mem_record member))) s.

Definition clickUnlink (member : GroupMember) (w : World) : World :=
  if unlinkDisabled member (w_state w) then w
  else unlinkProviderEvent (mem_providerId member)
         (rec_provider_event_id (mem_record member)) w.

Definition availableLinkTargets (options : list OrbitOption) (member : GroupMember)
  : list OrbitOption :=
  List.filter (fun option =>
                 negb (strict_eq (opt_id option) (rec_orbit_event_id (mem_record member))))
              options.

Definition linkDisabled (options : list OrbitOption) (member : GroupMember)
    (s : ModalState) : bool :=
  (length (availableLinkTargets options member) =? 0)%nat
  || isActionLoading ActLink
       (actionKey (mem_providerId member) (rec_provider_event_id (mem_record member))) s.

Definition clickLink (options : list OrbitOption) (member : GroupMember) (w : World) : World :=
  if linkDisabled options member (w_state w) then w
  else onState (startLink options (mem_providerId member)
                  (rec_provider_event_id (mem_record member))
                  (rec_orbit_event_id (mem_record member))) w.

(** The Save button exists only in the row being edited. *)
Definition clickSave (w : World) : World :=
  match st_linkEditor (w_state w) with
  | None => w
  | Some linkEditor =>
      if isActionLoading ActLink
           (actionKey (le_providerId linkEditor) (le_providerEventId linkEditor)) (w_state w)
      then w
      else submitLink w
  end.

(** Number of requests equal to [request] issued so far. *)
Definition issued (request : Request) (w : World) : nat :=
  length (List.filter (Request_eqb request) (w_network w)).

(** Whether a handler for [request] is still suspended. *)
Definition inFlight (request : Request) (w : World) : bool :=
  existsb (fun k => Request_eqb request (susp_request k)) (w_pending w).

Definition idleState : ModalState :=
  {| st_providerEvents := ∅;
     st_refreshTick := 0;
     st_actionError := None;
     st_actionState := None;
     st_linkEditor := None;
     st_linkTargetOrbit := "" |}.

Definition idleWorld : World :=
  {| w_state := idleState; w_network := []; w_pending := [] |}.

(** ** Notions used to state the properties *)

Definition keyOf (row : string * ProviderEventRecord) : string :=
  groupKey (fst row) (snd row).

(** The keys of a list in the order of their first occurrence: the
    iteration order of a [Map] filled in that order. *)
Definition insertionOrder (keys : list string) : list string :=
  fold_left (fun seen k => if existsb (String.eqb k) seen then seen else seen ++ [k])
            keys [].

(** The rows of a snapshot that fall under the group key [k]. *)
Definition rowsOf (k : string) (rows : list (string * ProviderEventRecord))
  : list (string * ProviderEventRecord) :=
  List.filter (fun row => String.eqb (keyOf row) k) rows.

(** The row a member was built from. *)
Definition memberRow (member : GroupMember) : string * ProviderEventRecord :=
  (mem_providerId member, mem_record member).

(** Number of rows of the snapshot stored under the same counting key. *)
Definition sameCountKey (key : string) (rows : list (string * ProviderEventRecord)) : nat :=
  length (List.filter (fun row => String.eqb (countKey (fst row) (snd row)) key) rows).

(** Number of rows of the snapshot with the pair [(providerId,
    providerEventId)]: the literal duplicate count. *)
Definition samePair (providerId providerEventId : string)
    (rows : list (string * ProviderEventRecord)) : nat :=
  length (List.filter (fun row => String.eqb (fst row) providerId
                                  && String.eqb (rec_provider_event_id (snd row)) providerEventId)
                      rows).

(** The character [:], the separator of both key formats. *)
Definition colon : Ascii.ascii := Ascii.ascii_of_nat 58.

(** No provider id of the snapshot contains the separator [:]. *)
Definition plainProviderIds (rows : list (string * ProviderEventRecord)) : bool :=
  forallb (fun row => negb (has_char colon (fst row))) rows.

(** No canonical id of the snapshot starts like a synthetic key. *)
Definition plainOrbitIds (rows : list (string * ProviderEventRecord)) : bool :=
  forallb (fun row => match rec_orbit_event_id (snd row) with
                      | Some orbitId => negb (String.prefix "unlinked:" orbitId)
                      | None => true
                      end) rows.

(** Groups the final comparator ranks alike: same collision flag and
    same latest timestamp. *)
Definition sameRank (suspect : bool) (t : Z) (group : TroubleshootGroup) : bool :=
  Bool.eqb (grp_suspectCollision group) suspect && (grp_latestTimestamp group =? t).

(** The distinct provider ids among a group's members. *)
Definition distinctProviders (members : list GroupMember) : list string :=
  remove_dups (mem_providerId <$> members).

(** The specification's reading of [latestActivityAt]: a timestamp that
    is missing or does not parse is the earliest possible value, below
    every timestamp ([None]); the latest activity is the maximum over the
    three timestamps of every member. *)
Definition knownTimestamp (Date_parse : string -> option Z) (value : option string)
  : option Z :=
  match value with
  | None => None
  | Some s => if String.eqb s "" then None else Date_parse s
  end.

Definition laterOf (a b : option Z) : option Z :=
  match a, b with
  | Some x, Some y => Some (Z.max x y)
  | Some x, None => Some x
  | None, b => b
  end.

Definition latestActivityAt (Date_parse : string -> option Z)
    (flows : gmap string SyncEventSummary) (members : list GroupMember) : option Z :=
  fold_right
    (fun member acc =>
       let record := mem_record member in
       laterOf (laterOf (laterOf (knownTimestamp Date_parse (rec_last_updated record))
                                 (knownTimestamp Date_parse (rec_start record)))
                        (knownTimestamp Date_parse (flowOf flows record ≫= ev_occurred_at)))
               acc)
    None members.


(** The fallback message of the handler that issued [request]. *)
Definition failureFallback (request : Request) : string :=
  match request with
  | ReqLink _ _ _ => "Failed to relink provider event"
  | ReqUnlink _ _ => "Failed to unlink provider event"
  end.

Section GroupShape.
Variable Date_parse : string -> option Z.
Variable formatProviderName : string -> string.
Variable endpoints : gmap string SyncEndpointSummary.
Variable providers : gmap string Provider.
Variable flows : gmap string SyncEventSummary.
Variable rows : list (string * ProviderEventRecord).

Definition memberOf (row : string * ProviderEventRecord) : GroupMember :=
  buildMember formatProviderName endpoints providers flows rows (fst row) (snd row).

Definition timestampOf (row : string * ProviderEventRecord) : Z :=
  recordTimestamp Date_parse flows (snd row).

(** The working group the loop holds under a key once it has met the
    row [first] and then the rows [rest] with that key. *)
Definition groupFrom (first : string * ProviderEventRecord)
    (rest : list (string * ProviderEventRecord)) : TroubleshootGroup :=
  {| grp_key := keyOf first;
     grp_orbitEventId := rec_orbit_event_id (snd first);
     grp_title := rec_title (snd first);
     grp_start := rec_start (snd first);
     grp_orbitOccurredAt := flowOf flows (snd first) ≫= ev_occurred_at;
     grp_suspectCollision := false;
     grp_providerCount := 0;
     grp_latestTimestamp :=
       fold_left (fun acc row => Z.max acc (timestampOf row)) rest (timestampOf first);
     grp_members := memberOf <$> (first :: rest) |}.

(** What the map holds after the loop has gone through the rows [rs]. *)
Definition loopInvariant (rs : list (string * ProviderEventRecord))
    (m : jsmap TroubleshootGroup) : Prop :=
  jsmap_keys m = insertionOrder (keyOf <$> rs)
  /\ forall k g, jsmap_get k m = Some g ->
       exists first rest, rowsOf k rs = first :: rest /\ g = groupFrom first rest.
End GroupShape.

(** ** Further parts of the modal *)

(** [collisionCount] *)
Definition collisionCount (gs : list TroubleshootGroup) : nat :=
  length (List.filter grp_suspectCollision gs).

(** [anyLoading] *)
Definition anyLoading (providerIds : list string) (s : ModalState) : bool :=
  existsb (fun id =>
             match st_providerEvents s !! id with
             | Some panel => panel_loading panel
             | None => false
             end) providerIds.

(** The effect that runs while the modal is closed. *)
Definition resetOnClose (s : ModalState) : ModalState :=
  setLinkTargetOrbit ""
    (setLinkEditor None (setActionError None (setProviderEvents (fun _ => ∅) s))).

(** The fetches of one refresh settle one after the other. *)
Definition settleAll (outcomes : list (string * FetchOutcome)) (s : ModalState)
  : ModalState :=
  fold_left (fun s outcome => settleFetch false (fst outcome) (snd outcome) s) outcomes s.

Definition isRejected (outcome : FetchOutcome) : bool :=
  match outcome with
  | FetchRejected _ => true
  | FetchResolved _ => false
  end.

(** [haystack.includes(needle)] *)
Definition includes (needle haystack : string) : bool :=
  match String.index 0 needle haystack with
  | Some _ => true
  | None => false
  end.

Section Endpoints.
(** [String.prototype.toLowerCase]. *)
Variable toLowerCase : string -> string.

Definition roleWeight (role : string) : Z :=
  let value := toLowerCase role in
  if includes "primary" value || includes "source" value then 0
  else if includes "secondary" value || includes "target" value then 1
  else 2.

Definition endpointCompare (a b : SyncEndpointSummary) : Z :=
  roleWeight (ep_role a) - roleWeight (ep_role b).

(** [orderedEndpoints] *)
Definition orderedEndpoints (endpoints : list SyncEndpointSummary)
  : list SyncEndpointSummary :=
  Array_sort endpointCompare endpoints.

Definition sameWeight (weight : Z) (endpoint : SyncEndpointSummary) : bool :=
  roleWeight (ep_role endpoint) =? weight.
End Endpoints.

(** *** What the user can do, and what can happen, while the modal is open *)

Inductive UiEvent :=
| ClickUnlink (member : GroupMember)
| ClickLink (options : list OrbitOption) (member : GroupMember)
| SelectTarget (orbitId : string)
| ClickSave
| ClickCancel
| Settled (n : nat) (outcome : Outcome)
| FetchStarted (providerIds : list string)
| FetchSettled (providerId : string) (outcome : FetchOutcome).

(** The target select and the Cancel button exist only while the editor
    is open. *)
Definition step (w : World) (event : UiEvent) : World :=
  match event with
  | ClickUnlink member => clickUnlink member w
  | ClickLink options member => clickLink options member w
  | SelectTarget orbitId =>
      match st_linkEditor (w_state w) with
      | Some _ => onState (setLinkTargetOrbit orbitId) w
      | None => w
      end
  | ClickSave => clickSave w
  | ClickCancel =>
      match st_linkEditor (w_state w) with
      | Some _ => onState cancelLink w
      | None => w
      end
  | Settled n outcome => settle n outcome w
  | FetchStarted providerIds => onState (markLoading providerIds) w
  | FetchSettled providerId outcome => onState (settleFetch false providerId outcome) w
  end.

Definition run (events : list UiEvent) (w : World) : World :=
  fold_left step events w.

(** A request the handlers may send: a link request names a target. *)
Definition wellFormed (request : Request) : bool :=
  match request with
  | ReqLink _ _ orbitId => negb (String.eqb orbitId "")
  | ReqUnlink _ _ => true
  end.

(** The unlink clicks of a history that were made on a linked record. *)
Definition unlinkClicks (events : list UiEvent) : list Request :=
  omap (fun event =>
          match event with
          | ClickUnlink member =>
              if truthy (rec_orbit_event_id (mem_record member))
              then Some (ReqUnlink (mem_providerId member)
                                   (rec_provider_event_id (mem_record member)))
              else None
          | _ => None
          end) events.

(** What one event does to the request log, the waiting handlers and the
    action slot: nothing, one request sent, or one handler resumed. *)
Inductive StepKind (event : UiEvent) (w w' : World) : Prop :=
| Quiet :
    w_network w' = w_network w -> w_pending w' = w_pending w ->
    st_actionState (w_state w') = st_actionState (w_state w) ->
    StepKind event w w'
| Sent (request : Request) (k : Suspended) :
    w_network w' = w_network w ++ [request] ->
    w_pending w' = w_pending w ++ [k] -> susp_request k = request ->
    st_actionState (w_state w') <> None ->
    wellFormed request = true ->
    (forall p e, request = ReqUnlink p e -> request ∈ unlinkClicks [event]) ->
    StepKind event w w'
| Finished (n : nat) :
    w_network w' = w_network w ->
    w_pending w' = take n (w_pending w) ++ drop (S n) (w_pending w) ->
    st_actionState (w_state w') = None ->
    StepKind event w w'.

(** What holds of the request log, the waiting handlers and the action
    slot after a history of events. *)
Definition historyInvariant (events : list UiEvent) (w : World) : Prop :=
  Forall (fun request => wellFormed request = true) (w_network w)
  /\ (forall p e, ReqUnlink p e ∈ w_network w -> ReqUnlink p e ∈ unlinkClicks events)
  /\ Forall (fun k => susp_request k ∈ w_network w) (w_pending w)
  /\ (st_actionState (w_state w) <> None -> w_pending w <> []).

(** *** Further notions *)

(** Whether a row carries the canonical id [orbitId]. *)
Definition hasOrbitId (orbitId : string) (row : string * ProviderEventRecord) : bool :=
  strict_eq orbitId (rec_orbit_event_id (snd row)).

(** The provider ids of the rows that carry the canonical id [orbitId]. *)
Definition linkedProviders (orbitId : string) (rows : list (string * ProviderEventRecord))
  : list string :=
  fst <$> List.filter (hasOrbitId orbitId) rows.

(** The canonical id of a group when it is truthy. *)
Definition truthyOrbitId (group : TroubleshootGroup) : option string :=
  if truthy (grp_orbitEventId group) then grp_orbitEventId group else None.

(** One iteration of [groups.forEach] in [orbitOptions]. *)
Definition seeGroup (seen : jsmap string) (group : TroubleshootGroup) : jsmap string :=
  if truthy (grp_orbitEventId group) then
    match grp_orbitEventId group with
    | Some orbitId =>
        match jsmap_get orbitId seen with
        | Some _ => seen
        | None =>
            jsmap_set orbitId
              (if String.eqb (grp_title group) ""
               then "Orbit " +:+ shortenId orbitId 6
               else grp_title group) seen
        end
    | None => seen
    end
  else seen.

(** The first link target the editor offers for [currentOrbitId]. *)
Definition firstTarget (options : list OrbitOption) (currentOrbitId : option string)
  : option string :=
  opt_id <$> head (List.filter (fun option =>
                                  negb (strict_eq (opt_id option) currentOrbitId)) options).

(** ** Sample data *)

Definition sampleRecord (orbitId : option string) (providerEventId providerId : string)
    (lastUpdated : option string) : ProviderEventRecord :=
  {| rec_orbit_event_id := orbitId;
     rec_provider_event_id := providerEventId;
     rec_provider_id := providerId;
     rec_provider_name := providerId;
     rec_title := "Standup";
     rec_start := None;
     rec_end := None;
     rec_last_updated := lastUpdated;
     rec_provider_last_seen := None;
     rec_tombstoned := false |}.

(** Three values of [Date.parse] (milliseconds since the epoch). *)
Definition sampleDateParse (s : string) : option Z :=
  if String.eqb s "1969-12-31T23:59:59.000Z" then Some (-1000)
  else if String.eqb s "1970-01-01T00:00:01.000Z" then Some 1000
  else if String.eqb s "2024-01-01T00:00:00.000Z" then Some 1704067200000
  else None.

(** A formatter that leaves names alone and a comparison by code units. *)
Definition sampleFormat (name : string) : string := name.

Definition sampleCompare (a b : string) : Z :=
  match String.compare a b with
  | Lt => -1
  | Eq => 0
  | Gt => 1
  end.

Definition sampleGroups (flows : gmap string SyncEventSummary)
    (rows : list (string * ProviderEventRecord)) : list TroubleshootGroup :=
  groups sampleDateParse sampleFormat sampleCompare ∅ ∅ flows rows.

(** Two providers report the same canonical event; one provider reports
    an unlinked event twice. *)
Definition scenarioRows : list (string * ProviderEventRecord) :=
  [("apple", sampleRecord (Some "orbit-1") "evt-1" "apple" (Some "2024-01-01T00:00:00.000Z"));
   ("skylight", sampleRecord (Some "orbit-1") "sky-9" "skylight" None);
   ("apple", sampleRecord None "evt-42" "apple" (Some "1970-01-01T00:00:01.000Z"));
   ("apple", sampleRecord None "evt-42" "apple" None)].

Definition scenarioFlow : SyncEventSummary :=
  {| ev_id := "orbit-1";
     ev_title := "Standup";
     ev_start := None;
     ev_source_provider_id := Some "apple";
     ev_target_provider_id := Some "skylight";
     ev_occurred_at := None |}.

Definition scenarioFlows : gmap string SyncEventSummary := {[ "orbit-1" := scenarioFlow ]}.

(** The group of the canonical event in [scenarioRows]. *)
Definition scenarioGroup : TroubleshootGroup :=
  finalize sampleCompare
    (groupFrom sampleDateParse sampleFormat ∅ ∅ scenarioFlows scenarioRows
       ("apple", sampleRecord (Some "orbit-1") "evt-1" "apple" (Some "2024-01-01T00:00:00.000Z"))
       [("skylight", sampleRecord (Some "orbit-1") "sky-9" "skylight" None)]).

(** The group of the unlinked event that [scenarioRows] holds twice. *)
Definition duplicateGroup : TroubleshootGroup :=
  finalize sampleCompare
    (groupFrom sampleDateParse sampleFormat ∅ ∅ scenarioFlows scenarioRows
       ("apple", sampleRecord None "evt-42" "apple" (Some "1970-01-01T00:00:01.000Z"))
       [("apple", sampleRecord None "evt-42" "apple" None)]).

(** Two different pairs with the same counting key. *)
Definition collidingCountRows : list (string * ProviderEventRecord) :=
  [("cal", sampleRecord (Some "orbit-1") ":1" "cal" None);
   ("cal:", sampleRecord (Some "orbit-2") "1" "cal:" None)].

(** Two different unlinked pairs with the same synthetic key. *)
Definition collidingKeyRows : list (string * ProviderEventRecord) :=
  [("a", sampleRecord None "b:c" "a" None);
   ("a:b", sampleRecord None "c" "a:b" None)].

(** A canonical id that reads like the synthetic key of the unlinked
    record next to it. *)
Definition syntheticIdRows : list (string * ProviderEventRecord) :=
  [("a", sampleRecord (Some "unlinked:a:b") "x" "a" None);
   ("a", sampleRecord None "b" "a" None)].

(** One record, last updated one second before the epoch. *)
Definition earlyRows : list (string * ProviderEventRecord) :=
  [("apple", sampleRecord None "evt-1" "apple" (Some "1969-12-31T23:59:59.000Z"))].

(** A flow whose source and target are the same provider. *)
Definition loopFlow : SyncEventSummary :=
  {| ev_id := "orbit-1";
     ev_title := "Standup";
     ev_start := None;
     ev_source_provider_id := Some "apple";
     ev_target_provider_id := Some "apple";
     ev_occurred_at := None |}.

(** A flow that names no target. *)
Definition openFlow : SyncEventSummary :=
  {| ev_id := "orbit-1";
     ev_title := "Standup";
     ev_start := None;
     ev_source_provider_id := Some "apple";
     ev_target_provider_id := None;
     ev_occurred_at := None |}.

Definition sampleMember (providerId providerEventId orbitId : string) : GroupMember :=
  buildMember sampleFormat ∅ ∅ ∅ [] providerId
    (sampleRecord (Some orbitId) providerEventId providerId None).

Definition appleMember : GroupMember := sampleMember "apple" "evt-1" "orbit-1".
Definition skylightMember : GroupMember := sampleMember "skylight" "sky-9" "orbit-1".

(** The first provider fetch succeeds with one record; after a refresh
    the next fetch of the same provider fails. *)
Definition refetchFailed : ModalState :=
  settleFetch false "apple" (FetchRejected (Some "boom"))
    (markLoading ["apple"]
       (setRefreshTick (fun tick => (tick + 1)%nat)
          (settleFetch false "apple"
             (FetchResolved [sampleRecord (Some "orbit-1") "evt-1" "apple" None])
             (markLoading ["apple"] idleState)))).


(** A single linked record without flow. *)
Definition loneRows : list (string * ProviderEventRecord) :=
  [("apple", sampleRecord (Some "orbit-2") "evt-7" "apple" None)].

Definition loneGroup : TroubleshootGroup :=
  finalize sampleCompare
    (groupFrom sampleDateParse sampleFormat ∅ ∅ ∅ loneRows
       ("apple", sampleRecord (Some "orbit-2") "evt-7" "apple" None) []).

(** A consistent comparison of names: by length. *)
Definition lengthCompare (a b : string) : Z :=
  Z.of_nat (String.length a) - Z.of_nat (String.length b).

Definition scenarioGroupByLength : TroubleshootGroup :=
  finalize lengthCompare
    (groupFrom sampleDateParse sampleFormat ∅ ∅ scenarioFlows scenarioRows
       ("apple", sampleRecord (Some "orbit-1") "evt-1" "apple" (Some "2024-01-01T00:00:00.000Z"))
       [("skylight", sampleRecord (Some "orbit-1") "sky-9" "skylight" None)]).

(** One fetch succeeds, the other fails. *)
Definition sampleOutcomes : list (string * FetchOutcome) :=
  [("skylight", FetchRejected None);
   ("apple", FetchResolved [sampleRecord (Some "orbit-1") "evt-1" "apple" None])].

Definition sampleOptions : list OrbitOption :=
  [{| opt_id := "orbit-1"; opt_label := "Standup" |};
   {| opt_id := "orbit-2"; opt_label := "Retro" |}].






(** * Properties *)

(** ** Strings *)

Lemma eqb_true_iff (a b : string) : String.eqb a b = true <-> a = b.
Proof. apply String.eqb_eq. Qed.

Lemma eqb_false_iff (a b : string) : String.eqb a b = false <-> a <> b.
Proof. apply String.eqb_neq. Qed.

(** Joining with a separator that occurs in neither left part is
    injective. *)
Lemma append_sep_inj (c : Ascii.ascii) (p1 p2 s1 s2 : string) :
  has_char c p1 = false -> has_char c p2 = false ->
  p1 +:+ String c s1 = p2 +:+ String c s2 -> p1 = p2 /\ s1 = s2.
Proof.
  revert p2. induction p1 as [|a p1 IH]; intros [|b p2]; simpl; intros H1 H2 E.
  - by inversion E.
  - inversion E; subst. by rewrite Ascii.eqb_refl in H2.
  - inversion E; subst. by rewrite Ascii.eqb_refl in H1.
  - inversion E; subst.
    apply orb_false_iff in H1 as [_ H1]. apply orb_false_iff in H2 as [_ H2].
    destruct (IH p2 H1 H2) as [-> ->]; done.
Qed.

(** ** Insertion-ordered maps *)

Section JsMapFacts.
Context {V : Type}.
Implicit Types (m : jsmap V) (k : string).

Lemma jsmap_get_None k m : jsmap_get k m = None <-> k ∉ jsmap_keys m.
Proof.
  induction m as [|[k' v] m IH]; simpl.
  - split; [intros _; apply not_elem_of_nil | done].
  - rewrite not_elem_of_cons. destruct (String.eqb k k') eqn:E.
    + apply eqb_true_iff in E. split; [done | intros [? _]; done].
    + apply eqb_false_iff in E. rewrite IH. tauto.
Qed.

Lemma jsmap_get_Some_elem k v m : jsmap_get k m = Some v -> (k, v) ∈ m.
Proof.
  induction m as [|[k' v'] m IH]; simpl; [done|].
  destruct (String.eqb k k') eqn:E.
  - apply eqb_true_iff in E. intros [= ->]. subst. apply list_elem_of_here.
  - intros H. apply list_elem_of_further. auto.
Qed.

Lemma jsmap_elem_get k v m : NoDup (jsmap_keys m) -> (k, v) ∈ m -> jsmap_get k m = Some v.
Proof.
  induction m as [|[k' v'] m IH]; simpl; intros ND Hin.
  - by apply elem_of_nil in Hin.
  - apply NoDup_cons in ND as [Hk ND]. apply elem_of_cons in Hin as [[= -> ->]|Hin].
    + by rewrite String.eqb_refl.
    + destruct (String.eqb k k') eqn:E.
      * apply eqb_true_iff in E. subst. exfalso. apply Hk.
        apply list_elem_of_fmap. by exists (k', v).
      * auto.
Qed.

Lemma jsmap_set_fresh k v m : jsmap_get k m = None -> jsmap_set k v m = m ++ [(k, v)].
Proof.
  induction m as [|[k' v'] m IH]; simpl; [done|].
  destruct (String.eqb k k'); [done|]. intros H. by rewrite IH.
Qed.

Lemma jsmap_alter_last (f : V -> V) k v m :
  jsmap_get k m = None -> jsmap_alter f k (m ++ [(k, v)]) = m ++ [(k, f v)].
Proof.
  induction m as [|[k' v'] m IH]; simpl.
  - by rewrite String.eqb_refl.
  - destruct (String.eqb k k'); [done|]. intros H. by rewrite IH.
Qed.

Lemma jsmap_alter_alter (f g : V -> V) k m :
  jsmap_alter f k (jsmap_alter g k m) = jsmap_alter (fun v => f (g v)) k m.
Proof.
  induction m as [|[k' v'] m IH]; simpl; [done|].
  destruct (String.eqb k k') eqn:E; simpl; rewrite E; [done|]. by rewrite IH.
Qed.

Lemma jsmap_keys_alter (f : V -> V) k m : jsmap_keys (jsmap_alter f k m) = jsmap_keys m.
Proof.
  induction m as [|[k' v'] m IH]; simpl; [done|].
  destruct (String.eqb k k'); simpl; [done|]. by rewrite IH.
Qed.

Lemma jsmap_get_alter (f : V -> V) k k' m :
  jsmap_get k' (jsmap_alter f k m)
  = if String.eqb k' k then f <$> jsmap_get k' m else jsmap_get k' m.
Proof.
  induction m as [|[k0 v0] m IH]; simpl.
  - by destruct (String.eqb k' k).
  - destruct (String.eqb k k0) eqn:E; simpl.
    + apply eqb_true_iff in E. subst k0. destruct (String.eqb k' k); done.
    + destruct (String.eqb k' k0) eqn:E'; [|done].
      apply eqb_true_iff in E'. subst k0.
      rewrite String.eqb_sym in E. by rewrite E.
Qed.

Lemma jsmap_get_snoc k k' v m :
  jsmap_get k' (m ++ [(k, v)])
  = match jsmap_get k' m with
    | Some v' => Some v'
    | None => if String.eqb k' k then Some v else None
    end.
Proof.
  induction m as [|[k0 v0] m IH]; simpl; [done|].
  destruct (String.eqb k' k0); done.
Qed.
End JsMapFacts.

(** ** The sort *)

Section ArraySortFacts.
Context {A : Type} (cmp : A -> A -> Z).

Lemma sort_insert_perm x l : sort_insert cmp x l ≡ₚ x :: l.
Proof.
  induction l as [|y l IH]; simpl; [done|].
  destruct (cmp x y <=? 0); [done|]. rewrite IH. apply perm_swap.
Qed.

Lemma Array_sort_perm l : Array_sort cmp l ≡ₚ l.
Proof.
  induction l as [|x l IH]; simpl; [done|].
  rewrite sort_insert_perm. by rewrite IH.
Qed.

Lemma Array_sort_length l : length (Array_sort cmp l) = length l.
Proof. apply Permutation_length, Array_sort_perm. Qed.

Lemma Array_sort_elem x l : x ∈ Array_sort cmp l <-> x ∈ l.
Proof. by rewrite Array_sort_perm. Qed.

(** The comparator is consistent: [cmp a b <= 0] is a total preorder. *)
Hypothesis cmp_total : forall a b, cmp a b <= 0 \/ cmp b a <= 0.
Hypothesis cmp_trans : forall a b c, cmp a b <= 0 -> cmp b c <= 0 -> cmp a c <= 0.

Lemma sort_insert_sorted x l :
  StronglySorted (before cmp) l -> StronglySorted (before cmp) (sort_insert cmp x l).
Proof.
  induction 1 as [|y l Hs IH Hy]; simpl.
  - repeat constructor.
  - destruct (cmp x y <=? 0) eqn:E.
    + apply Z.leb_le in E. constructor; [by constructor|].
      constructor; [done|]. eapply Forall_impl; [exact Hy|].
      intros z Hz. by apply cmp_trans with y.
    + apply Z.leb_gt in E. constructor; [done|].
      rewrite sort_insert_perm. constructor; [|done].
      destruct (cmp_total x y); [lia | done].
Qed.

Lemma Array_sort_sorted l : StronglySorted (before cmp) (Array_sort cmp l).
Proof.
  induction l as [|x l IH]; simpl; [constructor|]. by apply sort_insert_sorted.
Qed.

Lemma sort_insert_tied a x l :
  List.filter (tied cmp a) (sort_insert cmp x l) = List.filter (tied cmp a) (x :: l).
Proof.
  induction l as [|y l IH]; [done|].
  cbn [sort_insert]. destruct (cmp x y <=? 0) eqn:E; [done|].
  cbn [List.filter] in *. rewrite IH.
  destruct (tied cmp a x) eqn:Hx; [|done].
  destruct (tied cmp a y) eqn:Hy; [|done].
  exfalso. apply Z.leb_gt in E.
  apply andb_true_iff in Hx as [_ Hx]. apply andb_true_iff in Hy as [Hy _].
  apply Z.leb_le in Hx, Hy. pose proof (cmp_trans _ _ _ Hx Hy). lia.
Qed.

(** Stability: every class of tied elements keeps its original order. *)
Lemma Array_sort_stable a l :
  List.filter (tied cmp a) (Array_sort cmp l) = List.filter (tied cmp a) l.
Proof.
  induction l as [|x l IH]; [done|].
  cbn [Array_sort]. rewrite sort_insert_tied. cbn [List.filter]. by rewrite IH.
Qed.
End ArraySortFacts.

(** ** First-occurrence order *)

Lemma existsb_eqb_elem (k : string) (l : list string) :
  existsb (String.eqb k) l = true <-> k ∈ l.
Proof.
  rewrite existsb_exists. split.
  - intros (x & Hx & E). apply eqb_true_iff in E. subst. by apply list_elem_of_In.
  - intros H. exists k. split; [by apply list_elem_of_In | apply String.eqb_refl].
Qed.

Lemma insertionOrder_snoc (ks : list string) (k : string) :
  insertionOrder (ks ++ [k])
  = if existsb (String.eqb k) (insertionOrder ks)
    then insertionOrder ks else insertionOrder ks ++ [k].
Proof. unfold insertionOrder. by rewrite fold_left_app. Qed.

Lemma insertionOrder_elem (ks : list string) (k : string) :
  k ∈ insertionOrder ks <-> k ∈ ks.
Proof.
  revert k. induction ks as [|k' ks IH] using rev_ind; intros k.
  - done.
  - rewrite insertionOrder_snoc.
    destruct (existsb _ _) eqn:E; rewrite !elem_of_app, ?list_elem_of_singleton, ?IH.
    + apply existsb_eqb_elem in E. rewrite IH in E.
      split; [tauto | intros [?| ->]; tauto].
    + tauto.
Qed.

Lemma insertionOrder_NoDup (ks : list string) : NoDup (insertionOrder ks).
Proof.
  induction ks as [|k' ks IH] using rev_ind.
  - constructor.
  - rewrite insertionOrder_snoc. destruct (existsb _ _) eqn:E; [done|].
    apply NoDup_app. split_and!; [done | | apply NoDup_singleton].
    intros x Hx ->%list_elem_of_singleton.
    apply existsb_eqb_elem in Hx. congruence.
Qed.

(** ** Rows under a key *)

Lemma rowsOf_app k rs rs' : rowsOf k (rs ++ rs') = rowsOf k rs ++ rowsOf k rs'.
Proof. apply List.filter_app. Qed.

Lemma rowsOf_nil_iff k rs : rowsOf k rs = [] <-> k ∉ keyOf <$> rs.
Proof.
  induction rs as [|r rs IH]; simpl.
  - split; [intros _; apply not_elem_of_nil | done].
  - rewrite not_elem_of_cons. destruct (String.eqb (keyOf r) k) eqn:E.
    + apply eqb_true_iff in E. split; [done | intros [? _]; congruence].
    + apply eqb_false_iff in E. rewrite IH. split; [intros; split; [congruence | done] | tauto].
Qed.

Lemma rowsOf_elem k row rs : row ∈ rowsOf k rs <-> row ∈ rs /\ keyOf row = k.
Proof.
  unfold rowsOf. rewrite !list_elem_of_In, List.filter_In.
  by rewrite eqb_true_iff.
Qed.

Lemma rowsOf_cons_other k r rs : keyOf r <> k -> rowsOf k (r :: rs) = rowsOf k rs.
Proof. intros H%eqb_false_iff. unfold rowsOf. cbn [List.filter]. by rewrite H. Qed.

Lemma rowsOf_cons_same r rs : rowsOf (keyOf r) (r :: rs) = r :: rowsOf (keyOf r) rs.
Proof. unfold rowsOf. cbn [List.filter]. by rewrite String.eqb_refl. Qed.

Lemma flat_rowsOf_nil (ks : list string) : flat_map (fun k => rowsOf k []) ks = [].
Proof. induction ks as [|k ks IH]; [done|]. simpl. exact IH. Qed.

Lemma flat_rowsOf_absent r rs (ks : list string) :
  keyOf r ∉ ks ->
  flat_map (fun k => rowsOf k (r :: rs)) ks = flat_map (fun k => rowsOf k rs) ks.
Proof.
  induction ks as [|k ks IH]; [done|].
  intros [Hne Hk]%not_elem_of_cons. cbn [flat_map].
  rewrite rowsOf_cons_other by done. by rewrite IH.
Qed.

Lemma flat_rowsOf_present r rs (ks : list string) :
  NoDup ks -> keyOf r ∈ ks ->
  flat_map (fun k => rowsOf k (r :: rs)) ks ≡ₚ r :: flat_map (fun k => rowsOf k rs) ks.
Proof.
  induction ks as [|k ks IH]; intros ND Hr; [by apply elem_of_nil in Hr|].
  apply NoDup_cons in ND as [Hk ND]. cbn [flat_map].
  destruct (decide (keyOf r = k)) as [<-|Hne].
  - rewrite rowsOf_cons_same, flat_rowsOf_absent by done. done.
  - rewrite rowsOf_cons_other by done.
    apply elem_of_cons in Hr as [?|Hr]; [done|].
    rewrite (IH ND Hr). by rewrite Permutation_middle.
Qed.

(** Splitting a snapshot by key loses and repeats nothing. *)
Lemma rowsOf_partition (ks : list string) rs :
  NoDup ks -> (forall row, row ∈ rs -> keyOf row ∈ ks) ->
  flat_map (fun k => rowsOf k rs) ks ≡ₚ rs.
Proof.
  intros ND. induction rs as [|r rs IH]; intros Hks.
  - by rewrite flat_rowsOf_nil.
  - rewrite flat_rowsOf_present; [|done|apply Hks; left].
    constructor. apply IH. intros row Hrow. apply Hks. by right.
Qed.

(** ** The grouping loop *)

Section GroupingLoop.
Variable Date_parse : string -> option Z.
Variable formatProviderName : string -> string.
Variable localeCompare : string -> string -> Z.
Variable endpoints : gmap string SyncEndpointSummary.
Variable providers : gmap string Provider.
Variable flows : gmap string SyncEventSummary.
Variable rows : list (string * ProviderEventRecord).

Local Abbreviation visit' :=
  (visit Date_parse formatProviderName endpoints providers flows rows).
Local Abbreviation groupFrom' :=
  (groupFrom Date_parse formatProviderName endpoints providers flows rows).
Local Abbreviation memberOf' := (memberOf formatProviderName endpoints providers flows rows).
Local Abbreviation timestampOf' := (timestampOf Date_parse flows).
Local Abbreviation loopInvariant :=
  (loopInvariant Date_parse formatProviderName endpoints providers flows rows).
Local Abbreviation working :=
  (workingGroups Date_parse formatProviderName endpoints providers flows rows).
Local Abbreviation unsorted :=
  (unsortedGroups Date_parse formatProviderName localeCompare endpoints providers flows rows).
Local Abbreviation sorted :=
  (groups Date_parse formatProviderName localeCompare endpoints providers flows rows).

Lemma loopInvariant_nil : loopInvariant [] [].
Proof. split; [done | intros k g [=]]. Qed.

Lemma loopInvariant_visit rs r m :
  loopInvariant rs m -> loopInvariant (rs ++ [r]) (visit' m r).
Proof.
  intros [Hkeys Hget]. unfold visit. fold (keyOf r).
  destruct (jsmap_get (keyOf r) m) as [g0|] eqn:G.
  - (* the group exists: its timestamp and members are updated in place *)
    rewrite jsmap_alter_alter. split.
    + rewrite jsmap_keys_alter, fmap_app.
      change (keyOf <$> [r]) with [keyOf r]. rewrite insertionOrder_snoc, <- Hkeys.
      assert (keyOf r ∈ jsmap_keys m) as ->%existsb_eqb_elem; [|done].
      destruct (decide (keyOf r ∈ jsmap_keys m)) as [|Hn]; [done|].
      apply jsmap_get_None in Hn. congruence.
    + intros k g. rewrite jsmap_get_alter, rowsOf_app.
      destruct (String.eqb k (keyOf r)) eqn:E.
      * apply eqb_true_iff in E. subst k. rewrite G. intros [= <-].
        destruct (Hget _ _ G) as (first & rest & Hrows & ->).
        exists first, (rest ++ [r]). rewrite Hrows, rowsOf_cons_same. split; [done|].
        unfold groupFrom, pushMember, touchGroup; cbn.
        by rewrite fold_left_app, fmap_app.
      * apply eqb_false_iff in E. rewrite rowsOf_cons_other by done.
        rewrite app_nil_r. apply Hget.
  - (* first row under this key: a new group is appended *)
    rewrite jsmap_set_fresh, jsmap_alter_last by done. split.
    + unfold jsmap_keys in *. rewrite !fmap_app.
      change (keyOf <$> [r]) with [keyOf r]. rewrite insertionOrder_snoc, <- Hkeys. cbn.
      assert (existsb (String.eqb (keyOf r)) (fst <$> m) = false) as ->; [|done].
      apply not_true_is_false. intros H%existsb_eqb_elem.
      by apply jsmap_get_None in G.
    + intros k g. rewrite jsmap_get_snoc, rowsOf_app.
      destruct (jsmap_get k m) as [g1|] eqn:G1.
      * intros [= <-]. destruct (Hget _ _ G1) as (first & rest & Hrows & ->).
        assert (keyOf r <> k) by congruence.
        rewrite rowsOf_cons_other by done. rewrite app_nil_r. eauto.
      * destruct (String.eqb k (keyOf r)) eqn:E; [|done].
        apply eqb_true_iff in E. subst k. intros [= <-].
        exists r, []. split; [|done].
        rewrite rowsOf_cons_same.
        assert (rowsOf (keyOf r) rs = []) as ->; [|done].
        apply rowsOf_nil_iff. intros H. apply jsmap_get_None in G1. apply G1.
        rewrite Hkeys. by apply insertionOrder_elem.
Qed.

Lemma loopInvariant_fold rs rs' m :
  loopInvariant rs m -> loopInvariant (rs ++ rs') (fold_left visit' rs' m).
Proof.
  revert rs m. induction rs' as [|r rs' IH]; intros rs m Hm; simpl.
  - by rewrite app_nil_r.
  - rewrite (assoc_L _ rs [r] rs' : rs ++ r :: rs' = (rs ++ [r]) ++ rs').
    by apply IH, loopInvariant_visit.
Qed.

Lemma working_invariant : loopInvariant rows working.
Proof. apply (loopInvariant_fold [] rows []), loopInvariant_nil. Qed.

Lemma working_keys : jsmap_keys working = insertionOrder (keyOf <$> rows).
Proof. apply working_invariant. Qed.

Lemma working_elem k w :
  (k, w) ∈ working ->
  exists first rest, rowsOf k rows = first :: rest /\ w = groupFrom' first rest.
Proof.
  intros Hin. apply working_invariant, jsmap_elem_get; [|done].
  rewrite working_keys. apply insertionOrder_NoDup.
Qed.

Lemma rowsOf_head_key k first rest : rowsOf k rows = first :: rest -> keyOf first = k.
Proof.
  intros H. assert (first ∈ rowsOf k rows) as Hin by (rewrite H; left).
  by apply rowsOf_elem in Hin as [_ ?].
Qed.

Lemma memberRow_memberOf row : memberRow (memberOf' row) = row.
Proof. by destruct row. Qed.

Lemma memberRows_groupFrom first rest :
  memberRow <$> grp_members (groupFrom' first rest) = first :: rest.
Proof.
  unfold groupFrom; cbn [grp_members]. rewrite <- list_fmap_compose.
  rewrite <- (list_fmap_id (first :: rest)) at 2.
  apply list_fmap_ext. intros _ row _. apply memberRow_memberOf.
Qed.

Lemma finalize_members w :
  grp_members (finalize localeCompare w) ≡ₚ grp_members w.
Proof. apply Array_sort_perm. Qed.

Lemma finalize_key w : grp_key (finalize localeCompare w) = grp_key w.
Proof. done. Qed.

(** The groups before the final sort, in [Map] iteration order. *)
Lemma unsorted_keys : grp_key <$> unsorted = insertionOrder (keyOf <$> rows).
Proof.
  rewrite <- working_keys. unfold unsortedGroups, jsmap_values, jsmap_keys.
  rewrite <- !list_fmap_compose. apply list_fmap_ext.
  intros i [k w] Hi. cbn. apply list_elem_of_lookup_2 in Hi.
  destruct (working_elem _ _ Hi) as (first & rest & Hrows & ->).
  cbn. by apply rowsOf_head_key in Hrows.
Qed.

Lemma unsorted_shape g :
  g ∈ unsorted ->
  exists first rest,
    rowsOf (grp_key g) rows = first :: rest
    /\ g = finalize localeCompare (groupFrom' first rest).
Proof.
  unfold unsortedGroups, jsmap_values.
  intros (w & -> & ([k w'] & -> & Hin)%list_elem_of_fmap)%list_elem_of_fmap.
  destruct (working_elem _ _ Hin) as (first & rest & Hrows & Hw).
  exists first, rest. cbn [snd] in *. subst w'. split; [|done].
  rewrite finalize_key. cbn [groupFrom grp_key].
  by rewrite (rowsOf_head_key _ _ _ Hrows).
Qed.

Lemma sorted_perm : sorted ≡ₚ unsorted.
Proof. apply Array_sort_perm. Qed.

(** Every group of the result is what the loop built from the rows of
    the snapshot that carry the group's key, in snapshot order. *)
Lemma groups_shape g :
  g ∈ sorted ->
  exists first rest,
    rowsOf (grp_key g) rows = first :: rest
    /\ g = finalize localeCompare (groupFrom' first rest).
Proof. rewrite sorted_perm. apply unsorted_shape. Qed.

Lemma groups_member_rows g :
  g ∈ sorted -> memberRow <$> grp_members g ≡ₚ rowsOf (grp_key g) rows.
Proof.
  intros (first & rest & Hrows & Hg)%groups_shape.
  rewrite Hrows, Hg, finalize_members. by rewrite memberRows_groupFrom.
Qed.

Lemma unsorted_member_rows :
  flat_map (fun g => memberRow <$> grp_members g) unsorted ≡ₚ rows.
Proof.
  rewrite <- (rowsOf_partition (insertionOrder (keyOf <$> rows)) rows) at 2.
  - rewrite <- unsorted_keys.
    assert (forall g, g ∈ unsorted ->
              memberRow <$> grp_members g ≡ₚ rowsOf (grp_key g) rows) as H.
    { intros g Hg. apply groups_member_rows. by rewrite sorted_perm. }
    induction unsorted as [|g gs IH]; [done|].
    cbn [flat_map fmap list_fmap]. rewrite H by left.
    apply Permutation_app_head, IH. intros g' Hg'. apply H. by right.
  - apply insertionOrder_NoDup.
  - intros row Hrow. apply insertionOrder_elem, list_elem_of_fmap. by exists row.
Qed.
End GroupingLoop.

Lemma NoDup_fmap_elem_inj {A B} (f : A -> B) (l : list A) x y :
  NoDup (f <$> l) -> x ∈ l -> y ∈ l -> f x = f y -> x = y.
Proof.
  induction l as [|a l IH]; cbn; intros ND Hx Hy E; [by apply elem_of_nil in Hx|].
  apply NoDup_cons in ND as [Ha ND].
  apply elem_of_cons in Hx as [->|Hx]; apply elem_of_cons in Hy as [->|Hy]; auto.
  - exfalso. apply Ha. rewrite E. apply list_elem_of_fmap. eauto.
  - exfalso. apply Ha. rewrite <- E. apply list_elem_of_fmap. eauto.
Qed.

Lemma StronglySorted_lookup {A} (R : A -> A -> Prop) (l : list A) i j a b :
  StronglySorted R l -> (i < j)%nat -> l !! i = Some a -> l !! j = Some b -> R a b.
Proof.
  intros Hs. revert i j. induction Hs as [|x l Hs IH Hx]; intros i j Hij Hi Hj.
  - by rewrite lookup_nil in Hi.
  - destruct j as [|j]; [lia|]. cbn in Hj. destruct i as [|i]; cbn in Hi.
    + injection Hi as ->. rewrite Forall_forall in Hx.
      apply Hx. by eapply list_elem_of_lookup_2.
    + apply (IH i j); [lia|done..].
Qed.

(** Filtering keeps the relative order of the elements it keeps, and
    adds no order of its own. *)
Lemma filter_lookup_lt {A} (P : A -> bool) (l : list A) i j a b :
  (i < j)%nat -> l !! i = Some a -> l !! j = Some b -> P a = true -> P b = true ->
  exists p q, (p < q)%nat /\ List.filter P l !! p = Some a /\ List.filter P l !! q = Some b.
Proof.
  revert i j. induction l as [|x l IH]; intros i j Hij Hi Hj Ha Hb.
  - by rewrite lookup_nil in Hi.
  - destruct j as [|j]; [lia|]. cbn in Hj. destruct i as [|i]; cbn in Hi.
    + injection Hi as ->. cbn. rewrite Ha.
      assert (b ∈ List.filter P l) as (q & Hq)%list_elem_of_lookup_1.
      { apply list_elem_of_In, List.filter_In. split; [|done].
        apply list_elem_of_In. by eapply list_elem_of_lookup_2. }
      exists 0%nat, (S q). split_and!; [lia|done..].
    + destruct (IH i j) as (p & q & Hpq & Hp & Hq); [lia|done..|].
      cbn. destruct (P x).
      * exists (S p), (S q). split_and!; [lia|done..].
      * exists p, q. done.
Qed.

Lemma filter_lookup_lt_inv {A} (P : A -> bool) (l : list A) p q a b :
  (p < q)%nat -> List.filter P l !! p = Some a -> List.filter P l !! q = Some b ->
  exists i j, (i < j)%nat /\ l !! i = Some a /\ l !! j = Some b.
Proof.
  revert p q. induction l as [|x l IH]; intros p q Hpq Hp Hq.
  - cbn in Hp. by rewrite lookup_nil in Hp.
  - cbn in Hp, Hq. destruct (P x).
    + destruct q as [|q]; [lia|]. cbn in Hq. destruct p as [|p]; cbn in Hp.
      * injection Hp as ->.
        assert (b ∈ l) as (j & Hj)%list_elem_of_lookup_1.
        { apply list_elem_of_lookup_2, list_elem_of_In, List.filter_In in Hq as [Hq _].
          by apply list_elem_of_In. }
        exists 0%nat, (S j). split_and!; [lia|done..].
      * destruct (IH p q) as (i & j & Hij & Hi & Hj); [lia|done..|].
        exists (S i), (S j). split_and!; [lia|done..].
    + destruct (IH p q) as (i & j & Hij & Hi & Hj); [done..|].
      exists (S i), (S j). split_and!; [lia|done..].
Qed.

(** ** CollisionClassifier: the comparator *)

Lemma groupCompare_before a b :
  before groupCompare a b
  <-> (grp_suspectCollision a = true /\ grp_suspectCollision b = false)
      \/ (grp_suspectCollision a = grp_suspectCollision b
          /\ grp_latestTimestamp b <= grp_latestTimestamp a).
Proof.
  unfold before, groupCompare.
  destruct (grp_suspectCollision a), (grp_suspectCollision b); cbn;
    intuition (try discriminate; try lia).
Qed.

Lemma groupCompare_total a b : groupCompare a b <= 0 \/ groupCompare b a <= 0.
Proof.
  unfold groupCompare.
  destruct (grp_suspectCollision a), (grp_suspectCollision b); cbn; lia.
Qed.

Lemma groupCompare_trans a b c :
  groupCompare a b <= 0 -> groupCompare b c <= 0 -> groupCompare a c <= 0.
Proof.
  unfold groupCompare.
  destruct (grp_suspectCollision a), (grp_suspectCollision b), (grp_suspectCollision c);
    cbn; lia.
Qed.

Lemma tied_sameRank a g :
  tied groupCompare a g = sameRank (grp_suspectCollision a) (grp_latestTimestamp a) g.
Proof.
  unfold tied, sameRank, groupCompare.
  destruct (grp_suspectCollision a), (grp_suspectCollision g); cbn;
    try done; apply eq_true_iff_eq;
    rewrite andb_true_iff, !Z.leb_le, Z.eqb_eq; lia.
Qed.

(** ** Running maximum *)

Section FoldMax.
Context {A : Type} (f : A -> Z).

Lemma fold_max_ge_init (l : list A) init :
  init <= fold_left (fun acc x => Z.max acc (f x)) l init.
Proof.
  revert init. induction l as [|x l IH]; intros init; cbn; [lia|].
  specialize (IH (Z.max init (f x))). lia.
Qed.

Lemma fold_max_ge_elem (l : list A) init x :
  x ∈ l -> f x <= fold_left (fun acc x => Z.max acc (f x)) l init.
Proof.
  revert init. induction l as [|y l IH]; intros init Hx; [by apply elem_of_nil in Hx|].
  cbn. apply elem_of_cons in Hx as [->|Hx]; [|by apply IH].
  pose proof (fold_max_ge_init l (Z.max init (f y))). lia.
Qed.

Lemma fold_max_attained (l : list A) init :
  fold_left (fun acc x => Z.max acc (f x)) l init = init
  \/ exists x, x ∈ l /\ fold_left (fun acc x => Z.max acc (f x)) l init = f x.
Proof.
  revert init. induction l as [|y l IH]; intros init; cbn; [by left|].
  destruct (IH (Z.max init (f y))) as [E|(x & Hx & E)].
  - rewrite E. destruct (Z.max_spec init (f y)) as [[_ ->]|[_ ->]].
    + right. exists y. split; [left|done].
    + by left.
  - right. exists x. split; [by right|done].
Qed.
End FoldMax.

Lemma remove_dups_length_le (l : list string) : (length (remove_dups l) <= length l)%nat.
Proof.
  induction l as [|x l IH]; cbn; [done|].
  destruct (decide_rel _ x l); cbn; lia.
Qed.

Lemma size_list_to_set_remove_dups (l : list string) :
  size (list_to_set l : gset string) = length (remove_dups l).
Proof.
  rewrite <- (size_list_to_set (C := gset string) (remove_dups l))
    by apply NoDup_remove_dups.
  f_equal. apply set_eq. intros x.
  by rewrite !elem_of_list_to_set, elem_of_remove_dups.
Qed.

Lemma synthetic_key_prefix p e :
  String.prefix "unlinked:" ("unlinked:" +:+ p +:+ ":" +:+ e) = true.
Proof. destruct p; reflexivity. Qed.

Lemma synthetic_key_inj p1 e1 p2 e2 :
  has_char colon p1 = false -> has_char colon p2 = false ->
  "unlinked:" +:+ p1 +:+ ":" +:+ e1 = "unlinked:" +:+ p2 +:+ ":" +:+ e2 ->
  p1 = p2 /\ e1 = e2.
Proof.
  intros H1 H2 E. cbn in E. injection E as E.
  change (p1 +:+ String colon e1 = p2 +:+ String colon e2) in E.
  by apply append_sep_inj in E.
Qed.

Lemma plainOrbitIds_elem rows row orbitId :
  plainOrbitIds rows = true -> row ∈ rows ->
  rec_orbit_event_id (snd row) = Some orbitId ->
  String.prefix "unlinked:" orbitId = false.
Proof.
  unfold plainOrbitIds. rewrite forallb_forall. intros H Hin%list_elem_of_In Ho.
  apply H in Hin. rewrite Ho in Hin. by apply negb_true_iff in Hin.
Qed.

(** ** RecordIndexer *)

Lemma counts_fold (rs : list (string * ProviderEventRecord)) (acc : gmap string nat) key :
  nullish (fold_left (fun counts row =>
                        let key := countKey (fst row) (snd row) in
                        <[key := (nullish (counts !! key) 0 + 1)%nat]> counts) rs acc
             !! key) 0%nat
  = (nullish (acc !! key) 0 + sameCountKey key rs)%nat.
Proof.
  revert acc. induction rs as [|r rs IH]; intros acc; cbn [fold_left].
  - unfold sameCountKey. cbn. lia.
  - rewrite IH. unfold sameCountKey. cbn [List.filter].
    destruct (String.eqb (countKey (fst r) (snd r)) key) eqn:E.
    + apply eqb_true_iff in E. subst key. rewrite lookup_insert_eq. cbn. lia.
    + apply eqb_false_iff in E. by rewrite lookup_insert_ne.
Qed.

(** The stored count of a key is the number of rows with that key. *)
Lemma providerEventCounts_spec (rows : list (string * ProviderEventRecord)) key :
  nullish (providerEventCounts rows !! key) 0%nat = sameCountKey key rows.
Proof. unfold providerEventCounts. rewrite counts_fold, lookup_empty. done. Qed.

Lemma countKey_inj p1 r1 p2 r2 :
  has_char colon p1 = false -> has_char colon p2 = false ->
  countKey p1 r1 = countKey p2 r2 ->
  p1 = p2 /\ rec_provider_event_id r1 = rec_provider_event_id r2.
Proof.
  intros H1 H2 E. unfold countKey in E.
  change (p1 +:+ String colon (String colon (rec_provider_event_id r1))
          = p2 +:+ String colon (String colon (rec_provider_event_id r2))) in E.
  apply append_sep_inj in E as [-> [= ->]]; done.
Qed.

Lemma plainProviderIds_elem rows row :
  plainProviderIds rows = true -> row ∈ rows -> has_char colon (fst row) = false.
Proof.
  unfold plainProviderIds. rewrite forallb_forall. intros H Hin%list_elem_of_In.
  apply H in Hin. by apply negb_true_iff in Hin.
Qed.

(** Without [:] in provider ids the counting key identifies the pair. *)
Lemma sameCountKey_samePair rows p r :
  plainProviderIds rows = true -> has_char colon p = false ->
  sameCountKey (countKey p r) rows = samePair p (rec_provider_event_id r) rows.
Proof.
  intros Hrows Hp. unfold sameCountKey, samePair. f_equal.
  apply List.filter_ext_in. intros row Hin%list_elem_of_In.
  pose proof (plainProviderIds_elem _ _ Hrows Hin) as Hrow.
  destruct (String.eqb (countKey (fst row) (snd row)) (countKey p r)) eqn:E.
  - apply eqb_true_iff, countKey_inj in E as [-> ->]; [|done..].
    by rewrite !String.eqb_refl.
  - symmetry. apply not_true_is_false. intros [E1 E2]%andb_true_iff.
    apply eqb_true_iff in E1, E2. apply eqb_false_iff in E. apply E.
    unfold countKey. by rewrite E1, E2.
Qed.

(** ** GroupBuilder *)

Section GroupBuilder.
Variable Date_parse : string -> option Z.
Variable formatProviderName : string -> string.
Variable localeCompare : string -> string -> Z.
Variable endpoints : gmap string SyncEndpointSummary.
Variable providers : gmap string Provider.
Variable flows : gmap string SyncEventSummary.
Variable rows : list (string * ProviderEventRecord).

Local Abbreviation sorted :=
  (groups Date_parse formatProviderName localeCompare endpoints providers flows rows).
Local Abbreviation unsorted :=
  (unsortedGroups Date_parse formatProviderName localeCompare endpoints providers flows rows).
Local Abbreviation groupFrom' :=
  (groupFrom Date_parse formatProviderName endpoints providers flows rows).
Local Abbreviation memberOf' := (memberOf formatProviderName endpoints providers flows rows).

Lemma groups_keys_NoDup : NoDup (grp_key <$> sorted).
Proof.
  rewrite sorted_perm, unsorted_keys. apply insertionOrder_NoDup.
Qed.

Lemma groups_member_row g member :
  g ∈ sorted -> member ∈ grp_members g ->
  memberRow member ∈ rows /\ keyOf (memberRow member) = grp_key g.
Proof.
  intros Hg Hm. apply rowsOf_elem. rewrite <- groups_member_rows by done.
  apply list_elem_of_fmap. eauto.
Qed.

(** C1. The members of the computed groups, read back as rows, are a
    rearrangement of the snapshot (each fetched record occurs in exactly
    one group, as often as it was fetched); no two groups share a key;
    the key of a member's group is the record's canonical id when it has
    one and the synthetic key [unlinked:<providerId>:<providerEventId>]
    otherwise; hence two unlinked records with the same pair sit in the
    same group. *)
Theorem each_record_in_exactly_one_group :
  flat_map (fun g => memberRow <$> grp_members g) sorted ≡ₚ rows
  /\ NoDup (grp_key <$> sorted)
  /\ (forall g member, g ∈ sorted -> member ∈ grp_members g ->
        grp_key g
        = match rec_orbit_event_id (mem_record member) with
          | Some orbitId => orbitId
          | None => "unlinked:" +:+ mem_providerId member +:+ ":"
                      +:+ rec_provider_event_id (mem_record member)
          end)
  /\ (forall g1 g2 m1 m2,
        g1 ∈ sorted -> g2 ∈ sorted ->
        m1 ∈ grp_members g1 -> m2 ∈ grp_members g2 ->
        rec_orbit_event_id (mem_record m1) = None ->
        rec_orbit_event_id (mem_record m2) = None ->
        mem_providerId m1 = mem_providerId m2 ->
        rec_provider_event_id (mem_record m1) = rec_provider_event_id (mem_record m2) ->
        g1 = g2).
Proof.
  split_and!.
  - rewrite <- (unsorted_member_rows Date_parse formatProviderName localeCompare
                  endpoints providers flows rows) at 2.
    apply Permutation_flat_map, sorted_perm.
  - apply groups_keys_NoDup.
  - intros g member Hg Hm.
    destruct (groups_member_row g member Hg Hm) as [_ <-]. done.
  - intros g1 g2 m1 m2 Hg1 Hg2 Hm1 Hm2 Ho1 Ho2 Hp He.
    apply (NoDup_fmap_elem_inj grp_key sorted); [apply groups_keys_NoDup|done..|].
    destruct (groups_member_row g1 m1 Hg1 Hm1) as [_ <-].
    destruct (groups_member_row g2 m2 Hg2 Hm2) as [_ <-].
    unfold keyOf, groupKey, memberRow; cbn. by rewrite Ho1, Ho2, Hp, He.
Qed.

Lemma groups_member_built g member :
  g ∈ sorted -> member ∈ grp_members g -> member = memberOf' (memberRow member).
Proof.
  intros (first & rest & _ & ->)%groups_shape Hm.
  rewrite finalize_members in Hm. cbn [groupFrom grp_members] in Hm.
  apply list_elem_of_fmap in Hm as (row & -> & _). by rewrite memberRow_memberOf.
Qed.

Lemma groups_suspect g :
  g ∈ sorted ->
  grp_suspectCollision g
  = (1 <? length (grp_members g))%nat
    || existsb (fun member => (1 <? mem_duplicateCount member)%nat) (grp_members g).
Proof. by intros (first & rest & _ & ->)%groups_shape. Qed.

(** C2, as the code has it.  A group is a suspected collision exactly
    when it has more than one member or one of its members has a
    duplicate count above 1.  The duplicate count of a member is the
    number of rows of the whole snapshot whose counting key
    [<providerId>::<providerEventId>] is the same string; when no
    provider id of the snapshot contains [:], that is the literal number
    of rows with the member's [(providerId, providerEventId)] pair. *)
Theorem suspectCollision_iff g :
  g ∈ sorted ->
  (grp_suspectCollision g = true
   <-> (1 < length (grp_members g))%nat
       \/ exists member, member ∈ grp_members g /\ (1 < mem_duplicateCount member)%nat)
  /\ (forall member, member ∈ grp_members g ->
        mem_duplicateCount member
        = sameCountKey (countKey (mem_providerId member) (mem_record member)) rows)
  /\ (plainProviderIds rows = true ->
      forall member, member ∈ grp_members g ->
        mem_duplicateCount member
        = samePair (mem_providerId member)
                   (rec_provider_event_id (mem_record member)) rows).
Proof.
  intros Hg.
  assert (forall member, member ∈ grp_members g ->
            mem_duplicateCount member
            = sameCountKey (countKey (mem_providerId member) (mem_record member)) rows)
    as Hcount.
  { intros member Hm. rewrite (groups_member_built g member Hg Hm) at 1.
    unfold memberOf, buildMember, memberRow; cbn.
    apply providerEventCounts_spec. }
  split_and!; [|done|].
  - rewrite (groups_suspect g Hg), orb_true_iff, Nat.ltb_lt, existsb_exists.
    split; (intros [?|(member & Hm & Hd)]; [by left|right; exists member]).
    + apply list_elem_of_In in Hm. by apply Nat.ltb_lt in Hd.
    + apply list_elem_of_In in Hm. by apply Nat.ltb_lt in Hd.
  - intros Hplain member Hm. rewrite (Hcount member Hm).
    apply sameCountKey_samePair; [done|].
    destruct (groups_member_row g member Hg Hm) as [Hin _].
    apply (plainProviderIds_elem _ _ Hplain Hin).
Qed.

(** C3. In the final list every suspected collision comes before every
    other group, and among groups with the same flag the latest
    timestamps never increase; groups with the same flag and exactly the
    same timestamp keep the order they had before the sort (as a
    subsequence, and pair by pair), which is the order in which their keys
    first occur in the snapshot. *)
Theorem groups_ordering :
  (forall i j a b,
      (i < j)%nat -> sorted !! i = Some a -> sorted !! j = Some b ->
      (grp_suspectCollision b = true -> grp_suspectCollision a = true)
      /\ (grp_suspectCollision a = grp_suspectCollision b ->
          grp_latestTimestamp b <= grp_latestTimestamp a))
  /\ (forall suspect t,
        List.filter (sameRank suspect t) sorted
        = List.filter (sameRank suspect t) unsorted)
  /\ (forall i j a b,
        (i < j)%nat -> sorted !! i = Some a -> sorted !! j = Some b ->
        grp_suspectCollision a = grp_suspectCollision b ->
        grp_latestTimestamp a = grp_latestTimestamp b ->
        exists i' j', (i' < j')%nat /\ unsorted !! i' = Some a /\ unsorted !! j' = Some b)
  /\ sorted ≡ₚ unsorted
  /\ grp_key <$> unsorted = insertionOrder (keyOf <$> rows).
Proof.
  assert (forall suspect t,
            List.filter (sameRank suspect t) sorted
            = List.filter (sameRank suspect t) unsorted) as Hstable.
  { intros suspect t.
    set (pivot := {| grp_key := ""; grp_orbitEventId := None; grp_title := "";
                     grp_start := None; grp_orbitOccurredAt := None;
                     grp_suspectCollision := suspect; grp_providerCount := 0;
                     grp_latestTimestamp := t; grp_members := [] |}).
    rewrite !(List.filter_ext (sameRank suspect t) (tied groupCompare pivot))
      by (intros g; by rewrite tied_sameRank).
    apply Array_sort_stable, groupCompare_trans. }
  split_and!.
  - intros i j a b Hij Ha Hb.
    assert (before groupCompare a b) as Hab.
    { apply (StronglySorted_lookup _ sorted i j); [|done..].
      apply Array_sort_sorted; [apply groupCompare_total | apply groupCompare_trans]. }
    apply groupCompare_before in Hab as [[Hsa Hsb]|[Hs Ht]].
    + split; [congruence|]. intros E. congruence.
    + split; [congruence | done].
  - exact Hstable.
  - intros i j a b Hij Ha Hb Hs Ht.
    set (P := sameRank (grp_suspectCollision a) (grp_latestTimestamp a)).
    assert (P a = true) as HPa.
    { unfold P, sameRank. by rewrite eqb_reflx, Z.eqb_refl. }
    assert (P b = true) as HPb.
    { unfold P, sameRank. by rewrite Hs, Ht, eqb_reflx, Z.eqb_refl. }
    destruct (filter_lookup_lt P sorted i j a b Hij Ha Hb HPa HPb)
      as (p & q & Hpq & Hp & Hq).
    unfold P in Hp, Hq. rewrite Hstable in Hp, Hq.
    exact (filter_lookup_lt_inv _ _ p q a b Hpq Hp Hq).
  - apply sorted_perm.
  - apply unsorted_keys.
Qed.

(** C8, as the code has it.  The latest timestamp of a group is the
    maximum, over its members, of the record's [last_updated], its
    [start] and the [occurred_at] of the flow matched by its canonical
    id, where a timestamp that is missing, empty or unparseable counts as
    0 (the epoch); [parseTimestamp] is total, so nothing is thrown. *)
Theorem latestTimestamp_max g :
  g ∈ sorted ->
  (forall member, member ∈ grp_members g ->
     recordTimestamp Date_parse flows (mem_record member) <= grp_latestTimestamp g)
  /\ (exists member, member ∈ grp_members g
       /\ grp_latestTimestamp g = recordTimestamp Date_parse flows (mem_record member))
  /\ (forall record,
        recordTimestamp Date_parse flows record
        = Z.max (Z.max (parseTimestamp Date_parse (rec_last_updated record))
                       (parseTimestamp Date_parse (rec_start record)))
                (parseTimestamp Date_parse (flowOf flows record ≫= ev_occurred_at)))
  /\ (forall value,
        parseTimestamp Date_parse value = nullish (knownTimestamp Date_parse value) 0).
Proof.
  intros (first & rest & _ & ->)%groups_shape.
  cbn [finalize groupFrom grp_latestTimestamp grp_members].
  split_and!.
  - intros member Hm. rewrite Array_sort_elem in Hm.
    apply list_elem_of_fmap in Hm as (row & -> & Hrow).
    change (timestampOf Date_parse flows row
            <= fold_left (fun acc row => Z.max acc (timestampOf Date_parse flows row)) rest
                 (timestampOf Date_parse flows first)).
    apply elem_of_cons in Hrow as [->|Hrow].
    + apply fold_max_ge_init.
    + by apply fold_max_ge_elem.
  - destruct (fold_max_attained (timestampOf Date_parse flows) rest
                (timestampOf Date_parse flows first)) as [E|(row & Hrow & E)].
    + exists (memberOf' first). rewrite Array_sort_elem. split; [|exact E].
      apply list_elem_of_fmap. exists first. split; [done|left].
    + exists (memberOf' row). rewrite Array_sort_elem. split; [|exact E].
      apply list_elem_of_fmap. exists row. split; [done|by right].
  - done.
  - intros [s|]; [|done]. cbn. destruct (String.eqb s ""); [done|].
    by destruct (Date_parse s).
Qed.

(** C10, as the code has it.  Every group is non-empty; a group with a
    canonical id has it as its key; and the provider count is the number
    of distinct provider ids among the members, between 1 and the number
    of members.  When no canonical id of the snapshot starts with
    [unlinked:], every member's record of a group with a canonical id
    carries that id; when moreover no provider id of the snapshot contains
    [:], the members of a group without a canonical id are all unlinked
    and share one [(providerId, providerEventId)] pair. *)
Theorem groups_homogeneous g :
  g ∈ groups Date_parse formatProviderName localeCompare endpoints providers flows rows ->
  grp_members g <> []
  /\ (forall orbitId, grp_orbitEventId g = Some orbitId -> grp_key g = orbitId)
  /\ grp_providerCount g = length (distinctProviders (grp_members g))
  /\ (1 <= grp_providerCount g <= length (grp_members g))%nat
  /\ (plainOrbitIds rows = true ->
      forall orbitId, grp_orbitEventId g = Some orbitId ->
        forall member, member ∈ grp_members g ->
          rec_orbit_event_id (mem_record member) = Some orbitId)
  /\ (plainProviderIds rows = true -> plainOrbitIds rows = true ->
      grp_orbitEventId g = None ->
      exists providerId providerEventId,
        forall member, member ∈ grp_members g ->
          mem_providerId member = providerId
          /\ rec_provider_event_id (mem_record member) = providerEventId
          /\ rec_orbit_event_id (mem_record member) = None).
Proof.
  intros Hg.
  destruct (groups_shape _ _ _ _ _ _ _ g Hg) as (first & rest & Hrows & Eg).
  assert (first ∈ rows /\ keyOf first = grp_key g) as [Hfirst Hkey].
  { apply rowsOf_elem. rewrite Hrows. left. }
  assert (grp_orbitEventId g = rec_orbit_event_id (snd first)) as Horbit by by rewrite Eg.
  assert (length (grp_members g) = S (length rest)) as Hlen.
  { rewrite Eg. cbn [finalize grp_members]. rewrite Array_sort_length.
    cbn [groupFrom grp_members]. by rewrite length_fmap. }
  assert (grp_providerCount g = length (distinctProviders (grp_members g))) as Hcount.
  { rewrite Eg at 1. cbn [finalize grp_providerCount].
    rewrite size_list_to_set_remove_dups. by rewrite Eg. }
  assert (forall orbitId, grp_orbitEventId g = Some orbitId -> grp_key g = orbitId) as Hlinked.
  { intros orbitId Hgo. rewrite Horbit in Hgo.
    rewrite <- Hkey. unfold keyOf, groupKey. by rewrite Hgo. }
  split_and!.
  - intros E. by rewrite E in Hlen.
  - exact Hlinked.
  - exact Hcount.
  - rewrite Hcount.
    destruct (grp_members g) as [|member members] eqn:Hms; [done|].
    assert (mem_providerId member ∈ distinctProviders (member :: members)) as Hin.
    { apply elem_of_remove_dups. left. }
    destruct (distinctProviders (member :: members)); [by apply elem_of_nil in Hin|].
    cbn. lia.
  - rewrite Hcount. unfold distinctProviders.
    rewrite <- (length_fmap mem_providerId (grp_members g)).
    apply remove_dups_length_le.
  - intros Ho orbitId Hgo member Hm.
    pose proof (Hlinked orbitId Hgo) as Hk. rewrite Horbit in Hgo.
    destruct (groups_member_row g member Hg Hm) as [Hin Hmk].
    rewrite Hk in Hmk. unfold keyOf, groupKey, memberRow in Hmk; cbn in Hmk.
    destruct (rec_orbit_event_id (mem_record member)) as [o|] eqn:Hmo; [by subst|].
    pose proof (plainOrbitIds_elem _ _ _ Ho Hfirst Hgo) as Hpre.
    rewrite <- Hmk in Hpre. by rewrite synthetic_key_prefix in Hpre.
  - intros Hp Ho Hgo. rewrite Horbit in Hgo.
    exists (fst first), (rec_provider_event_id (snd first)). intros member Hm.
    destruct (groups_member_row g member Hg Hm) as [Hin Hmk].
    rewrite <- Hkey in Hmk. unfold keyOf, groupKey, memberRow in Hmk; cbn in Hmk.
    rewrite Hgo in Hmk.
    destruct (rec_orbit_event_id (mem_record member)) as [o|] eqn:Hmo.
    + pose proof (plainOrbitIds_elem _ (memberRow member) o Ho Hin Hmo) as Hpre.
      rewrite Hmk in Hpre. by rewrite synthetic_key_prefix in Hpre.
    + apply synthetic_key_inj in Hmk as [-> ->]; [done| |].
      * apply (plainProviderIds_elem _ _ Hp Hin).
      * apply (plainProviderIds_elem _ _ Hp Hfirst).
Qed.
End GroupBuilder.

(** ** FlowMatcher *)

Section FlowMatcher.
Variable formatProviderName : string -> string.
Variable endpoints : gmap string SyncEndpointSummary.
Variable providers : gmap string Provider.
Variable flows : gmap string SyncEventSummary.
Variable rows : list (string * ProviderEventRecord).

Local Abbreviation resolve := (resolveDirection formatProviderName endpoints providers).
Local Abbreviation counterpart := (counterpartOf formatProviderName endpoints providers).

Lemma strict_eq_true s o : strict_eq s o = true <-> o = Some s.
Proof.
  destruct o as [t|]; cbn; [|done]. rewrite eqb_true_iff. split; congruence.
Qed.

Lemma strict_eq_false s o : strict_eq s o = false <-> o <> Some s.
Proof. rewrite <- strict_eq_true. by destruct (strict_eq s o). Qed.

Lemma flowOf_unmatched record :
  (forall orbitId, rec_orbit_event_id record = Some orbitId -> flows !! orbitId = None) ->
  flowOf flows record = None.
Proof.
  intros H. unfold flowOf. destruct (truthy _); [|done].
  destruct (rec_orbit_event_id record); [by apply H | done].
Qed.

(** C9.  The direction of a member is resolved from the flow stored under
    its record's canonical id.  Without such a flow, or when the provider
    id is neither the flow's source nor its target, the label is Unmapped
    and there is no counterpart.  When the provider id is the flow's
    source the label is Outbound and the counterpart is the display name
    of the flow's target; when it is the flow's target the label is
    Inbound and the counterpart is the display name of the flow's source.
    This covers every flow between two different, named providers; the
    statement also fixes the two cases on its border: an end that the flow
    does not name gives no counterpart, and on a flow from a provider to
    itself the source side is the one that counts.  The display name of a
    provider id is the formatted name known for it (the endpoint's, else
    the provider's), else the formatted id, and the raw id when formatting
    yields the empty string. *)
Theorem direction_resolution providerId record :
  let member := buildMember formatProviderName endpoints providers flows rows
                  providerId record in
  let flow := flowOf flows record in
  (mem_directionLabel member = fst (resolve providerId flow)
   /\ mem_directionText member
      = directionText (fst (resolve providerId flow)) (snd (resolve providerId flow)))
  /\ ((forall orbitId, rec_orbit_event_id record = Some orbitId -> flows !! orbitId = None) ->
      resolve providerId flow = (Unmapped, None))
  /\ (forall f, flow = Some f ->
        ev_source_provider_id f <> Some providerId ->
        ev_target_provider_id f <> Some providerId ->
        resolve providerId flow = (Unmapped, None))
  /\ (forall f, flow = Some f ->
        ev_source_provider_id f = Some providerId ->
        resolve providerId flow
        = (Outbound,
           match ev_target_provider_id f with
           | Some target => if String.eqb target "" then None else Some (counterpart target)
           | None => None
           end))
  /\ (forall f, flow = Some f ->
        ev_source_provider_id f <> Some providerId ->
        ev_target_provider_id f = Some providerId ->
        resolve providerId flow
        = (Inbound,
           match ev_source_provider_id f with
           | Some source => if String.eqb source "" then None else Some (counterpart source)
           | None => None
           end))
  /\ (forall otherId,
        counterpart otherId
        = str_or (formatProviderName
                    match endpoints !! otherId, providers !! otherId with
                    | Some endpoint, _ => ep_provider_name endpoint
                    | None, Some provider => prov_name provider
                    | None, None => otherId
                    end) otherId).
Proof.
  cbn zeta. split_and!.
  - done.
  - done.
  - intros H. by rewrite flowOf_unmatched.
  - intros f -> Hs%strict_eq_false Ht%strict_eq_false. cbn. by rewrite Hs, Ht.
  - intros f -> Hs. pose proof Hs as Hs'%strict_eq_true. cbn. rewrite Hs'.
    destruct (ev_target_provider_id f) as [t|]; cbn; [|done].
    by destruct (String.eqb t "").
  - intros f -> Hs%strict_eq_false Ht. pose proof Ht as Ht'%strict_eq_true.
    cbn. rewrite Hs, Ht'.
    destruct (ev_source_provider_id f) as [t|]; cbn; [|done].
    by destruct (String.eqb t "").
  - intros otherId. unfold counterpartOf.
    destruct (endpoints !! otherId), (providers !! otherId); done.
Qed.
End FlowMatcher.

(** ** Per-provider fetches *)

Lemma settleFetch_rejected_panel providerId err s :
  st_providerEvents (settleFetch false providerId (FetchRejected err) s) !! providerId
  = Some {| panel_data := nullish (panel_data <$> st_providerEvents s !! providerId) [];
            panel_loading := false;
            panel_error := Some (errorMessage err "Failed to load provider events") |}.
Proof. cbn. apply lookup_insert_eq. Qed.

Lemma settleFetch_other providerId outcome other s :
  other <> providerId ->
  st_providerEvents (settleFetch false providerId outcome s) !! other
  = st_providerEvents s !! other.
Proof. intros H. destruct outcome; cbn; by rewrite lookup_insert_ne. Qed.

Lemma allRecords_ext providerIds (events events' : gmap string ProviderPanelState) :
  (forall id, id ∈ providerIds ->
     nullish (panel_data <$> events !! id) [] = nullish (panel_data <$> events' !! id) []) ->
  allRecords providerIds events = allRecords providerIds events'.
Proof.
  intros H. unfold allRecords. induction providerIds as [|id ids IH]; [done|].
  cbn [flat_map]. rewrite IH by (intros; apply H; by right). f_equal.
  specialize (H id (list_elem_of_here _ _)).
  destruct (events !! id) as [panel|], (events' !! id) as [panel'|]; cbn in H.
  - by rewrite H.
  - by rewrite H.
  - by rewrite <- H.
  - done.
Qed.

Lemma providerErrors_elem providerIds s id message :
  id ∈ providerIds ->
  st_providerEvents s !! id ≫= panel_error = Some message ->
  message <> "" ->
  message ∈ providerErrors providerIds s.
Proof.
  intros Hid Hm Hne. unfold providerErrors. apply list_elem_of_omap.
  exists id. split; [done|]. rewrite Hm.
  apply eqb_false_iff in Hne. by rewrite Hne.
Qed.

(** C7, as the code has it.  When a provider's fetch fails, its panel
    keeps the rows it already held (none if nothing was fetched for it
    before), stops loading and carries the failure message; the panels of
    all other providers are untouched, so the snapshot the groups are
    computed from is the same as before the failure; the message is listed
    among the per-provider errors; and the settlement of another
    provider's fetch commutes with it. *)
Theorem fetch_failure_isolated providerIds providerId err s :
  let s' := settleFetch false providerId (FetchRejected err) s in
  let message := errorMessage err "Failed to load provider events" in
  st_providerEvents s' !! providerId
  = Some {| panel_data := nullish (panel_data <$> st_providerEvents s !! providerId) [];
            panel_loading := false;
            panel_error := Some message |}
  /\ (forall other, other <> providerId ->
        st_providerEvents s' !! other = st_providerEvents s !! other)
  /\ snapshot providerIds s' = snapshot providerIds s
  /\ (nullish (panel_data <$> st_providerEvents s !! providerId) [] = [] ->
      allRecords [providerId] (st_providerEvents s') = [])
  /\ (providerId ∈ providerIds -> message <> "" ->
      message ∈ providerErrors providerIds s')
  /\ (forall other outcome, other <> providerId ->
        settleFetch false other outcome s'
        = settleFetch false providerId (FetchRejected err)
            (settleFetch false other outcome s)).
Proof.
  cbn zeta. split_and!.
  - apply settleFetch_rejected_panel.
  - intros other H. by apply settleFetch_other.
  - apply allRecords_ext. intros id _.
    destruct (decide (id = providerId)) as [->|Hne].
    + by rewrite settleFetch_rejected_panel.
    + by rewrite settleFetch_other.
  - intros H. unfold allRecords. cbn [flat_map].
    rewrite settleFetch_rejected_panel. cbn. by rewrite H.
  - intros Hid Hne. apply (providerErrors_elem _ _ providerId); [done| |done].
    by rewrite settleFetch_rejected_panel.
  - intros other outcome Hne. assert (providerId <> other) as Hne' by congruence.
    destruct outcome; unfold settleFetch, setProviderEvents; cbn; f_equal;
      rewrite ?lookup_insert_ne by done; by apply insert_insert_ne.
Qed.

(** ** MutationCoordinator *)

Lemma isActionLoading_true type key s :
  isActionLoading type key s = true <-> st_actionState s = Some (type, key).
Proof.
  unfold isActionLoading. destruct (st_actionState s) as [[type' key']|]; [|done].
  rewrite andb_true_iff, eqb_true_iff. split.
  - intros [Ht ->]. by destruct type', type.
  - intros [= -> ->]. by destruct type.
Qed.


(** C5, as the code has it.  When the request of a suspended link or
    unlink handler settles, the action slot is cleared whatever the
    outcome, no further request is sent and the handler is no longer
    waiting.  On success the refresh tick is incremented (which re-runs
    the fetch effects) and the error shown is left as it is; on failure
    the tick is left as it is and the failure message is shown. *)
Theorem settlement_effects n k outcome w :
  w_pending w !! n = Some k ->
  let w' := settle n outcome w in
  st_actionState (w_state w') = None
  /\ w_network w' = w_network w
  /\ w_pending w' = take n (w_pending w) ++ drop (S n) (w_pending w)
  /\ match outcome with
     | Resolved =>
         st_refreshTick (w_state w') = S (st_refreshTick (w_state w))
         /\ st_actionError (w_state w') = st_actionError (w_state w)
     | Rejected err =>
         st_refreshTick (w_state w') = st_refreshTick (w_state w)
         /\ st_actionError (w_state w')
            = Some (errorMessage err (failureFallback (susp_request k)))
     end.
Proof.
  intros Hk. unfold settle. rewrite Hk. cbn zeta. cbn [w_state w_network w_pending].
  unfold resume.
  destruct (susp_request k) as [p e o|p e], outcome as [|err]; cbn;
    try (split_and!; (done || lia)).
  destruct (susp_linkEditor k) as [le|]; [|split_and!; (done || lia)].
  destruct (String.eqb (le_providerId le) p && String.eqb (le_providerEventId le) e);
    cbn; split_and!; (done || lia).
Qed.

(** C4, as the code has it.  The action slot holds at most one
    [(type, key)]: the handler started last.  While it holds the key of a
    row, that row's Unlink button (and, for the row being edited, the Save
    button) is disabled, so a click changes nothing and sends nothing.
    The handlers themselves do not look at the slot: each call of
    [unlinkProviderEvent] sends one request and puts its own key in the
    slot; a click on the Unlink button of a linked row whose key is not in
    the slot sends a request, whatever else is still waiting. *)
Theorem same_key_guard member (w : World) :
  let key := actionKey (mem_providerId member) (rec_provider_event_id (mem_record member)) in
  (st_actionState (w_state w) = Some (ActUnlink, key) -> clickUnlink member w = w)
  /\ (forall linkEditor,
        st_linkEditor (w_state w) = Some linkEditor ->
        st_actionState (w_state w)
        = Some (ActLink, actionKey (le_providerId linkEditor) (le_providerEventId linkEditor)) ->
        clickSave w = w)
  /\ (forall providerId providerEventId,
        let w' := unlinkProviderEvent providerId providerEventId w in
        w_network w' = w_network w ++ [ReqUnlink providerId providerEventId]
        /\ st_actionState (w_state w')
           = Some (ActUnlink, actionKey providerId providerEventId))
  /\ (truthy (rec_orbit_event_id (mem_record member)) = true ->
      st_actionState (w_state w) <> Some (ActUnlink, key) ->
      w_network (clickUnlink member w)
      = w_network w ++ [ReqUnlink (mem_providerId member)
                                  (rec_provider_event_id (mem_record member))]).
Proof.
  cbn zeta. split_and!.
  - intros H%isActionLoading_true. unfold clickUnlink, unlinkDisabled.
    rewrite H. by rewrite orb_true_r.
  - intros linkEditor Hle H%isActionLoading_true. unfold clickSave.
    by rewrite Hle, H.
  - done.
  - intros Ht Hs. unfold clickUnlink, unlinkDisabled. rewrite Ht. cbn [negb orb].
    destruct (isActionLoading _ _ _) eqn:E; [|done].
    by apply isActionLoading_true in E.
Qed.

(** * Further properties of the modal *)

(** ** The snapshot and the lookup maps *)

(** A record is in the snapshot exactly when its provider is one of the
    sync's endpoints and the record is in that provider's panel; it is
    tagged with the endpoint's provider id.  Panels of other providers are
    ignored. *)
Lemma allRecords_elem providerIds (events : gmap string ProviderPanelState) row :
  row ∈ allRecords providerIds events
  <-> fst row ∈ providerIds
      /\ exists panel, events !! fst row = Some panel /\ snd row ∈ panel_data panel.
Proof.
  unfold allRecords. rewrite list_elem_of_In, in_flat_map. split.
  - intros (id & Hid%list_elem_of_In & Hrow).
    destruct (events !! id) as [panel|] eqn:E; [|done].
    apply in_map_iff in Hrow as (record & <- & Hrec%list_elem_of_In). cbn.
    split; [done|]. by exists panel.
  - intros (Hid & panel & Hpanel & Hrec). exists (fst row).
    split; [by apply list_elem_of_In|]. rewrite Hpanel.
    apply in_map_iff. exists (snd row). split; [by destruct row|].
    by apply list_elem_of_In.
Qed.

Lemma fold_insert_last {V} (key : V -> string) (l : list V) (m : gmap string V) k :
  fold_left (fun m x => <[key x := x]> m) l m !! k
  = match last (List.filter (fun x => String.eqb (key x) k) l) with
    | Some x => Some x
    | None => m !! k
    end.
Proof.
  induction l as [|x l IH] using rev_ind; [done|].
  rewrite fold_left_app, List.filter_app. cbn.
  destruct (String.eqb (key x) k) eqn:E.
  - apply eqb_true_iff in E. subst k. by rewrite last_snoc, lookup_insert_eq.
  - apply eqb_false_iff in E. by rewrite app_nil_r, lookup_insert_ne.
Qed.

(** X1.  When several flow events or endpoints share an id, the [Map]
    built from them holds the one that comes last in the list; an id that
    does not occur is absent. *)
Theorem lookup_maps_last_wins id :
  (forall flowEvents,
     flowByOrbit flowEvents !! id
     = last (List.filter (fun event => String.eqb (ev_id event) id) flowEvents))
  /\ (forall endpoints,
        endpointsByProvider endpoints !! id
        = last (List.filter (fun endpoint => String.eqb (ep_provider_id endpoint) id)
                            endpoints)).
Proof.
  split; intros l.
  - unfold flowByOrbit. rewrite fold_insert_last, lookup_empty. by destruct (last _).
  - unfold endpointsByProvider. rewrite fold_insert_last, lookup_empty.
    by destruct (last _).
Qed.

(** ** The link count of a member *)

Lemma orbitMembership_fold (rs : list (string * ProviderEventRecord))
    (acc : gmap string (gset string)) orbitId :
  orbitId <> "" ->
  nullish (fold_left (fun m row =>
                        if truthy (rec_orbit_event_id (snd row)) then
                          match rec_orbit_event_id (snd row) with
                          | Some orbitId =>
                              <[orbitId := nullish (m !! orbitId) ∅ ∪ {[fst row]}]> m
                          | None => m
                          end
                        else m) rs acc !! orbitId) ∅
  = nullish (acc !! orbitId) ∅ ∪ list_to_set (linkedProviders orbitId rs).
Proof.
  intros Hne. revert acc. induction rs as [|r rs IH]; intros acc; cbn [fold_left].
  - unfold linkedProviders. cbn. by rewrite union_empty_r_L.
  - rewrite IH. unfold linkedProviders, hasOrbitId. cbn [List.filter].
    destruct (rec_orbit_event_id (snd r)) as [o|] eqn:Ho; cbn; [|done].
    destruct (String.eqb o "") eqn:Eo; cbn.
    + apply eqb_true_iff in Eo. subst o.
      apply eqb_false_iff in Hne. by rewrite Hne.
    + destruct (String.eqb orbitId o) eqn:E.
      * apply eqb_true_iff in E. subst o. rewrite lookup_insert_eq. cbn.
        by rewrite (assoc_L (∪)).
      * apply eqb_false_iff in E. rewrite lookup_insert_ne by done. done.
Qed.

Lemma orbitMembershipCounts_spec rows orbitId :
  orbitId <> "" ->
  nullish (orbitMembershipCounts rows !! orbitId) 0%nat
  = length (remove_dups (linkedProviders orbitId rows)).
Proof.
  intros Hne. rewrite <- size_list_to_set_remove_dups.
  pose proof (orbitMembership_fold rows ∅ orbitId Hne) as H.
  rewrite lookup_empty in H. cbn in H. rewrite union_empty_l_L in H.
  fold (orbitMembership rows) in H. rewrite <- H.
  unfold orbitMembershipCounts. rewrite lookup_fmap.
  destruct (orbitMembership rows !! orbitId); cbn; [done|]. by rewrite size_empty.
Qed.

Section LinkCount.
Variable formatProviderName : string -> string.
Variable endpoints : gmap string SyncEndpointSummary.
Variable providers : gmap string Provider.
Variable flows : gmap string SyncEventSummary.
Variable rows : list (string * ProviderEventRecord).

(** X2.  The link count of a member is the number of distinct provider ids
    among the rows of the snapshot that carry the record's canonical id;
    it is 0 for a record whose canonical id is missing or empty. *)
Theorem orbitLinkCount_distinct providerId record :
  mem_orbitLinkCount
    (buildMember formatProviderName endpoints providers flows rows providerId record)
  = match rec_orbit_event_id record with
    | Some orbitId =>
        if String.eqb orbitId "" then 0%nat
        else length (remove_dups (linkedProviders orbitId rows))
    | None => 0%nat
    end.
Proof.
  cbn. destruct (rec_orbit_event_id record) as [o|]; cbn; [|done].
  destruct (String.eqb o "") eqn:E; cbn; [done|].
  apply orbitMembershipCounts_spec. by apply eqb_false_iff.
Qed.
End LinkCount.

(** ** More about the groups *)

Lemma filter_head_find {A} (P : A -> bool) (l : list A) x rest :
  List.filter P l = x :: rest -> List.find P l = Some x.
Proof.
  induction l as [|y l IH]; cbn; [done|].
  destruct (P y); [by intros [= ->]|done].
Qed.

Lemma sameCountKey_pos rows row :
  row ∈ rows -> (1 <= sameCountKey (countKey (fst row) (snd row)) rows)%nat.
Proof.
  intros Hin. unfold sameCountKey.
  assert (row ∈ List.filter
                  (fun row' => String.eqb (countKey (fst row') (snd row'))
                                          (countKey (fst row) (snd row))) rows) as H.
  { apply list_elem_of_In, List.filter_In. split; [by apply list_elem_of_In|].
    apply String.eqb_refl. }
  destruct (List.filter _ rows); [by apply elem_of_nil in H|cbn; lia].
Qed.

Lemma filter_none {A} (P : A -> bool) (l : list A) :
  Forall (fun y => P y = false) l -> List.filter P l = [].
Proof.
  induction 1 as [|y l Hy _ IH]; [done|]. cbn. by rewrite Hy.
Qed.

(** A list in which no element satisfying [P] comes after one that does
    not is its [P] part followed by the rest. *)
Lemma sorted_flag_split {A} (R : A -> A -> Prop) (P : A -> bool) (l : list A) :
  (forall a b, R a b -> P b = true -> P a = true) ->
  StronglySorted R l ->
  l = List.filter P l ++ List.filter (fun x => negb (P x)) l.
Proof.
  intros HR. induction 1 as [|x l Hs IH Hx]; [done|]. cbn.
  destruct (P x) eqn:Px; cbn; [by rewrite <- IH|].
  assert (List.filter P l = []) as E.
  { apply filter_none. eapply Forall_impl; [exact Hx|].
    intros y Hy. apply not_true_is_false. intros Py.
    pose proof (HR x y Hy Py). congruence. }
  rewrite E in *. cbn in *. by f_equal.
Qed.

Section GroupFacts.
Variable Date_parse : string -> option Z.
Variable formatProviderName : string -> string.
Variable localeCompare : string -> string -> Z.
Variable endpoints : gmap string SyncEndpointSummary.
Variable providers : gmap string Provider.
Variable flows : gmap string SyncEventSummary.
Variable rows : list (string * ProviderEventRecord).

Local Abbreviation sorted :=
  (groups Date_parse formatProviderName localeCompare endpoints providers flows rows).
Local Abbreviation unsorted :=
  (unsortedGroups Date_parse formatProviderName localeCompare endpoints providers flows rows).
Local Abbreviation memberOf' := (memberOf formatProviderName endpoints providers flows rows).

(** X3.  First seen wins: a group's canonical id, title, start and flow time
    are those of the first row of the snapshot that has the group's key,
    whatever the later rows with that key say. *)
Theorem first_seen_wins g :
  g ∈ sorted ->
  exists first,
    List.find (fun row => String.eqb (keyOf row) (grp_key g)) rows = Some first
    /\ grp_orbitEventId g = rec_orbit_event_id (snd first)
    /\ grp_title g = rec_title (snd first)
    /\ grp_start g = rec_start (snd first)
    /\ grp_orbitOccurredAt g = flowOf flows (snd first) ≫= ev_occurred_at.
Proof.
  intros Hg.
  destruct (groups_shape _ _ _ _ _ _ _ g Hg) as (first & rest & Hrows & ->).
  exists first. split; [|done]. by apply filter_head_find in Hrows.
Qed.

(** X4.  Every member's duplicate count is at least 1, and a group that is not
    flagged consists of a single member whose duplicate count is 1. *)
Theorem unflagged_group_single g :
  g ∈ groups Date_parse formatProviderName localeCompare endpoints providers flows rows ->
  (forall member, member ∈ grp_members g -> (1 <= mem_duplicateCount member)%nat)
  /\ (grp_suspectCollision g = false ->
      exists member, grp_members g = [member] /\ mem_duplicateCount member = 1%nat).
Proof.
  intros Hg.
  assert (forall member, member ∈ grp_members g -> (1 <= mem_duplicateCount member)%nat)
    as Hpos.
  { intros member Hm.
    destruct (groups_member_row _ _ _ _ _ _ _ g member Hg Hm) as [Hin _].
    rewrite (groups_member_built _ _ _ _ _ _ _ g member Hg Hm).
    unfold memberOf, buildMember; cbn. rewrite providerEventCounts_spec.
    apply (sameCountKey_pos rows (memberRow member) Hin). }
  split; [done|]. intros Hs.
  rewrite (groups_suspect _ _ _ _ _ _ _ g Hg) in Hs.
  apply orb_false_iff in Hs as [Hlen Hdup]. apply Nat.ltb_ge in Hlen.
  destruct (groups_shape _ _ _ _ _ _ _ g Hg) as (first & rest & Hrows & Eg).
  assert (length (grp_members g) = S (length rest)) as Hl.
  { rewrite Eg. cbn [finalize grp_members]. rewrite Array_sort_length.
    cbn [groupFrom grp_members]. by rewrite length_fmap. }
  destruct (grp_members g) as [|member [|member' members]] eqn:Hms.
  - cbn in Hl. lia.
  - exists member. split; [done|]. cbn [existsb] in Hdup.
    apply orb_false_iff in Hdup as [Hd _].
    apply Nat.ltb_ge in Hd. specialize (Hpos member (list_elem_of_here _ _)). lia.
  - cbn in Hlen. lia.
Qed.

(** X5.  The groups list is all flagged groups followed by all others, so the
    first [collisionCount] lines of the table are exactly the suspected
    collisions. *)
Theorem collisions_come_first :
  sorted = List.filter grp_suspectCollision sorted
             ++ List.filter (fun g => negb (grp_suspectCollision g)) sorted
  /\ Forall (fun g => grp_suspectCollision g = true) (take (collisionCount sorted) sorted)
  /\ Forall (fun g => grp_suspectCollision g = false) (drop (collisionCount sorted) sorted).
Proof.
  assert (sorted = List.filter grp_suspectCollision sorted
                     ++ List.filter (fun g => negb (grp_suspectCollision g)) sorted) as E.
  { apply (sorted_flag_split (before groupCompare)).
    - intros a b [[Ha _]|[Hab _]]%groupCompare_before Hb; congruence.
    - apply Array_sort_sorted; [apply groupCompare_total | apply groupCompare_trans]. }
  split; [exact E|]. unfold collisionCount.
  split.
  - rewrite E at 2. rewrite take_app_length. apply Forall_forall.
    intros g Hg%list_elem_of_In. by apply List.filter_In in Hg as [_ ?].
  - rewrite E at 2. rewrite drop_app_length. apply Forall_forall.
    intros g Hg%list_elem_of_In. apply List.filter_In in Hg as [_ Hg].
    by apply negb_true_iff in Hg.
Qed.

(** X6.  There is a group exactly when there is a fetched record, and the
    table has one line per fetched record. *)
Theorem groups_empty_iff :
  (groups Date_parse formatProviderName localeCompare endpoints providers flows rows = []
   <-> rows = [])
  /\ length (flat_map grp_members
               (groups Date_parse formatProviderName localeCompare endpoints providers flows rows))
     = length rows.
Proof.
  assert (flat_map (fun g => memberRow <$> grp_members g) sorted ≡ₚ rows) as Hperm.
  { rewrite <- (unsorted_member_rows Date_parse formatProviderName localeCompare
                  endpoints providers flows rows) at 2.
    apply Permutation_flat_map, sorted_perm. }
  split.
  - split.
    + intros E. rewrite E in Hperm. cbn in Hperm. by apply Permutation_nil in Hperm.
    + intros E. apply Permutation_nil. rewrite sorted_perm.
      unfold unsortedGroups, workingGroups. by rewrite E.
  - rewrite <- (Permutation_length Hperm). clear Hperm.
    induction sorted as [|g gs IH]; [done|]. cbn.
    by rewrite !length_app, length_fmap, IH.
Qed.
End GroupFacts.

(** ** More about the members *)

Lemma str_or_nonempty a b : b <> "" -> str_or a b <> "".
Proof.
  intros Hb. unfold str_or. destruct (String.eqb a "") eqn:E; [done|].
  by apply eqb_false_iff.
Qed.

Lemma truthy_Some s : s <> "" -> truthy (Some s) = true.
Proof. intros H%eqb_false_iff. cbn. by rewrite H. Qed.

Section MemberFacts.
Variable Date_parse : string -> option Z.
Variable formatProviderName : string -> string.
Variable localeCompare : string -> string -> Z.
Variable endpoints : gmap string SyncEndpointSummary.
Variable providers : gmap string Provider.
Variable flows : gmap string SyncEventSummary.
Variable rows : list (string * ProviderEventRecord).

Local Abbreviation sorted :=
  (groups Date_parse formatProviderName localeCompare endpoints providers flows rows).
Local Abbreviation memberOf' := (memberOf formatProviderName endpoints providers flows rows).
Local Abbreviation counterpart := (counterpartOf formatProviderName endpoints providers).

(** X7.  When [localeCompare] is a consistent comparison, the members of every
    group are in ascending order of provider name, and members whose
    names it does not tell apart stay in snapshot order. *)
Theorem members_sorted_by_name g :
  (forall a b, localeCompare a b <= 0 \/ localeCompare b a <= 0) ->
  (forall a b c, localeCompare a b <= 0 -> localeCompare b c <= 0 -> localeCompare a c <= 0) ->
  g ∈ sorted ->
  StronglySorted
    (fun a b => localeCompare (mem_providerName a) (mem_providerName b) <= 0)
    (grp_members g)
  /\ forall pivot,
       List.filter (tied (memberCompare localeCompare) pivot) (grp_members g)
       = List.filter (tied (memberCompare localeCompare) pivot)
           (memberOf' <$> rowsOf (grp_key g) rows).
Proof.
  intros Htotal Htrans Hg.
  destruct (groups_shape _ _ _ _ _ _ _ g Hg) as (first & rest & Hrows & Eg).
  rewrite Hrows. clear Hrows Hg. subst g. cbn [finalize groupFrom grp_members]. split.
  - apply (Array_sort_sorted (memberCompare localeCompare)).
    + intros a b. apply Htotal.
    + intros a b c. apply Htrans.
  - intros pivot. apply Array_sort_stable. intros a b c. apply Htrans.
Qed.

Lemma linked_group_rows g orbitId :
  plainOrbitIds rows = true -> g ∈ sorted -> grp_orbitEventId g = Some orbitId ->
  grp_key g = orbitId
  /\ forall row, row ∈ rows ->
       (keyOf row = orbitId <-> rec_orbit_event_id (snd row) = Some orbitId).
Proof.
  intros Ho Hg Hgo.
  destruct (groups_shape _ _ _ _ _ _ _ g Hg) as (first & rest & Hrows & Eg).
  assert (first ∈ rows /\ keyOf first = grp_key g) as [Hfirst Hkey].
  { apply rowsOf_elem. rewrite Hrows. left. }
  assert (rec_orbit_event_id (snd first) = Some orbitId) as Hfo.
  { rewrite <- Hgo. by rewrite Eg. }
  split.
  - rewrite <- Hkey. unfold keyOf, groupKey. by rewrite Hfo.
  - intros row Hrow. unfold keyOf, groupKey.
    destruct (rec_orbit_event_id (snd row)) as [o|] eqn:Hro.
    + split; congruence.
    + split; [|done]. intros E.
      pose proof (plainOrbitIds_elem _ _ _ Ho Hfirst Hfo) as Hpre.
      rewrite <- E in Hpre. by rewrite synthetic_key_prefix in Hpre.
Qed.

(** X8.  In a group with a (non-empty) canonical id, the link count shown on
    every member is the group's provider count, provided no canonical id
    of the snapshot starts with [unlinked:]. *)
Theorem linkCount_is_providerCount g orbitId :
  plainOrbitIds rows = true ->
  g ∈ sorted -> grp_orbitEventId g = Some orbitId -> orbitId <> "" ->
  forall member, member ∈ grp_members g ->
    mem_orbitLinkCount member = grp_providerCount g.
Proof.
  intros Ho Hg Hgo Hne member Hm.
  destruct (linked_group_rows g orbitId Ho Hg Hgo) as [Hkey Hrows].
  destruct (groups_member_row _ _ _ _ _ _ _ g member Hg Hm) as [Hin Hmk].
  assert (rec_orbit_event_id (mem_record member) = Some orbitId) as Hmo.
  { apply (Hrows (memberRow member) Hin). by rewrite Hmk. }
  assert (mem_orbitLinkCount member
          = length (remove_dups (linkedProviders orbitId rows))) as ->.
  { rewrite (groups_member_built _ _ _ _ _ _ _ g member Hg Hm).
    unfold memberOf, buildMember, memberRow; cbn. rewrite Hmo.
    rewrite (truthy_Some orbitId Hne). by apply orbitMembershipCounts_spec. }
  assert (grp_providerCount g
          = size (list_to_set (mem_providerId <$> grp_members g) : gset string)) as ->.
  { destruct (groups_shape _ _ _ _ _ _ _ g Hg) as (first & rest & _ & ->). done. }
  rewrite <- size_list_to_set_remove_dups. f_equal. apply set_eq. intros p.
  rewrite !elem_of_list_to_set. unfold linkedProviders.
  rewrite !list_elem_of_fmap. split.
  - intros (row & -> & Hrow%list_elem_of_In). apply List.filter_In in Hrow as [Hrow Hhas].
    apply list_elem_of_In in Hrow. apply strict_eq_true in Hhas.
    assert (row ∈ memberRow <$> grp_members g) as (m & -> & Hmem)%list_elem_of_fmap.
    { rewrite (groups_member_rows _ _ _ _ _ _ _ g Hg). apply rowsOf_elem.
      split; [done|]. rewrite Hkey. by apply Hrows. }
    by exists m.
  - intros (m & -> & Hmem).
    destruct (groups_member_row _ _ _ _ _ _ _ g m Hg Hmem) as [Hin' Hmk'].
    exists (memberRow m). split; [done|].
    apply list_elem_of_In, List.filter_In. split; [by apply list_elem_of_In|].
    apply strict_eq_true. apply (Hrows (memberRow m) Hin'). by rewrite Hmk'.
Qed.

(** X9.  The direction text names the other side whenever the flow does: a
    member on the source side of a flow with a non-empty target reads
    "Outbound → <name>", one on the target side (and not the source side)
    of a flow with a non-empty source reads "Inbound ← <name>", and the
    name is never empty. *)
Theorem direction_text_names_counterpart providerId record f other :
  flowOf flows record = Some f -> other <> "" ->
  let member := buildMember formatProviderName endpoints providers flows rows
                  providerId record in
  counterpart other <> ""
  /\ (ev_source_provider_id f = Some providerId ->
      ev_target_provider_id f = Some other ->
      mem_directionText member = "Outbound → " +:+ counterpart other)
  /\ (ev_source_provider_id f <> Some providerId ->
      ev_target_provider_id f = Some providerId ->
      ev_source_provider_id f = Some other ->
      mem_directionText member = "Inbound ← " +:+ counterpart other).
Proof.
  intros Hf Hne. cbn zeta.
  assert (counterpart other <> "") as Hc by by apply str_or_nonempty.
  split; [done|]. unfold buildMember; cbn [mem_directionText]. rewrite Hf.
  split.
  - intros Hs Ht. apply strict_eq_true in Hs. cbn [resolveDirection]. rewrite Hs, Ht.
    rewrite (truthy_Some other Hne). cbn [fst snd fmap option_fmap option_map directionText].
    by rewrite (truthy_Some _ Hc).
  - intros Hs Ht Hso. apply strict_eq_false in Hs. apply strict_eq_true in Ht.
    cbn [resolveDirection]. rewrite Hs, Ht, Hso.
    rewrite (truthy_Some other Hne). cbn [fst snd fmap option_fmap option_map directionText].
    by rewrite (truthy_Some _ Hc).
Qed.
End MemberFacts.

(** ** Link targets *)




Lemma orbitOptions_fold gs :
  orbitOptions gs
  = (fun entry => {| opt_id := fst entry; opt_label := snd entry |})
      <$> fold_left seeGroup gs [].
Proof. reflexivity. Qed.

Lemma seeGroup_ids seen g :
  fst <$> seeGroup seen g
  = match truthyOrbitId g with
    | Some orbitId =>
        if existsb (String.eqb orbitId) (fst <$> seen)
        then fst <$> seen else (fst <$> seen) ++ [orbitId]
    | None => fst <$> seen
    end.
Proof.
  unfold seeGroup, truthyOrbitId. destruct (truthy (grp_orbitEventId g)); [|done].
  destruct (grp_orbitEventId g) as [o|]; [|done].
  destruct (jsmap_get o seen) eqn:G.
  - assert (o ∈ fst <$> seen) as ->%existsb_eqb_elem; [|done].
    destruct (decide (o ∈ fst <$> seen)) as [|Hn]; [done|].
    apply (jsmap_get_None o seen) in Hn. congruence.
  - rewrite jsmap_set_fresh, fmap_app by done. cbn.
    assert (existsb (String.eqb o) (fst <$> seen) = false) as ->; [|done].
    apply not_true_is_false. intros H%existsb_eqb_elem.
    by apply (jsmap_get_None o seen) in G.
Qed.

Lemma seeGroup_nonempty seen g :
  Forall (fun entry => fst entry <> "" /\ snd entry <> "") seen ->
  Forall (fun entry => fst entry <> "" /\ snd entry <> "") (seeGroup seen g).
Proof.
  intros Hseen. unfold seeGroup.
  destruct (truthy (grp_orbitEventId g)) eqn:Ht; [|done].
  destruct (grp_orbitEventId g) as [o|]; [|done].
  destruct (jsmap_get o seen) eqn:G; [done|].
  rewrite jsmap_set_fresh by done. apply Forall_app. split; [done|].
  constructor; [|constructor]. cbn. split.
  - cbn in Ht. apply negb_true_iff in Ht. by apply eqb_false_iff.
  - destruct (String.eqb (grp_title g) "") eqn:Et; [done|]. by apply eqb_false_iff.
Qed.

(** X10.  The link targets on offer are the non-empty canonical ids of the
    groups, each once, in the order of their first group; no target has an
    empty id or an empty label. *)
Theorem orbitOptions_ids (gs : list TroubleshootGroup) :
  opt_id <$> orbitOptions gs = insertionOrder (omap truthyOrbitId gs)
  /\ Forall (fun option => opt_id option <> "" /\ opt_label option <> "") (orbitOptions gs).
Proof.
  rewrite orbitOptions_fold.
  assert (fst <$> fold_left seeGroup gs [] = insertionOrder (omap truthyOrbitId gs)
          /\ Forall (fun entry => fst entry <> "" /\ snd entry <> "")
                    (fold_left seeGroup gs [])) as [Hids Hall].
  { induction gs as [|g gs [IHids IHall]] using rev_ind; [by split|].
    rewrite fold_left_app, omap_app. cbn [fold_left]. split.
    - rewrite seeGroup_ids, IHids. cbn [omap].
      destruct (truthyOrbitId g) as [o|] eqn:Eo; cbn; rewrite ?Eo.
      + by rewrite insertionOrder_snoc.
      + by rewrite app_nil_r.
    - by apply seeGroup_nonempty. }
  split.
  - rewrite <- Hids, <- list_fmap_compose. by apply list_fmap_ext.
  - apply Forall_fmap. eapply Forall_impl; [exact Hall|]. by intros [id label].
Qed.

(** ** The endpoints in the title *)

Lemma StronglySorted_weaken {A} (R R' : A -> A -> Prop) (l : list A) :
  (forall a b, R a b -> R' a b) -> StronglySorted R l -> StronglySorted R' l.
Proof.
  intros HR. induction 1 as [|x l Hs IH Hx]; constructor; [done|].
  eapply Forall_impl; [exact Hx|]. intros y. apply HR.
Qed.

Section EndpointOrder.
Variable toLowerCase : string -> string.

Lemma roleWeight_range role :
  roleWeight toLowerCase role = 0 \/ roleWeight toLowerCase role = 1
  \/ roleWeight toLowerCase role = 2.
Proof.
  unfold roleWeight. destruct (_ || _); [by left|].
  destruct (_ || _); [right; by left | right; by right].
Qed.

(** X12.  The endpoints in the title are the sync's endpoints rearranged so
    that role weights never decrease (primary or source roles, then
    secondary or target roles, then the rest); endpoints of equal weight
    keep their configured order. *)
Theorem orderedEndpoints_sorted (endpoints : list SyncEndpointSummary) :
  orderedEndpoints toLowerCase endpoints ≡ₚ endpoints
  /\ StronglySorted
       (fun a b => roleWeight toLowerCase (ep_role a) <= roleWeight toLowerCase (ep_role b))
       (orderedEndpoints toLowerCase endpoints)
  /\ forall pivot,
       List.filter (sameWeight toLowerCase (roleWeight toLowerCase (ep_role pivot)))
                   (orderedEndpoints toLowerCase endpoints)
       = List.filter (sameWeight toLowerCase (roleWeight toLowerCase (ep_role pivot)))
                     endpoints.
Proof.
  unfold orderedEndpoints. split_and!.
  - apply Array_sort_perm.
  - eapply StronglySorted_weaken;
      [|apply (Array_sort_sorted (endpointCompare toLowerCase))].
    + intros a b. unfold before, endpointCompare. lia.
    + intros a b. unfold endpointCompare. lia.
    + intros a b c. unfold endpointCompare. lia.
  - intros pivot.
    rewrite !(List.filter_ext
                (sameWeight toLowerCase (roleWeight toLowerCase (ep_role pivot)))
                (tied (endpointCompare toLowerCase) pivot))
      by (intros x; unfold sameWeight, tied, endpointCompare; apply eq_true_iff_eq;
          rewrite andb_true_iff, !Z.leb_le, Z.eqb_eq; lia).
    apply Array_sort_stable. intros a b c. unfold endpointCompare. lia.
Qed.
End EndpointOrder.

(** ** The fetch effect *)

Lemma markLoading_lookup providerIds s id :
  st_providerEvents (markLoading providerIds s) !! id
  = if bool_decide (id ∈ providerIds)
    then Some {| panel_data := nullish (panel_data <$> st_providerEvents s !! id) [];
                 panel_loading := true;
                 panel_error := None |}
    else st_providerEvents s !! id.
Proof.
  revert s. induction providerIds as [|x ids IH]; intros s; [done|].
  unfold markLoading in *. cbn [fold_left]. rewrite IH. cbn.
  destruct (decide (id = x)) as [->|Hne].
  - rewrite lookup_insert_eq. cbn.
    rewrite (bool_decide_eq_true_2 (x ∈ x :: ids)) by left.
    by destruct (bool_decide (x ∈ ids)).
  - rewrite lookup_insert_ne by done.
    destruct (bool_decide (id ∈ ids)) eqn:E.
    + apply bool_decide_eq_true in E.
      by rewrite (bool_decide_eq_true_2 (id ∈ x :: ids)) by by right.
    + apply bool_decide_eq_false in E.
      rewrite (bool_decide_eq_false_2 (id ∈ x :: ids)); [done|].
      intros [?|?]%elem_of_cons; done.
Qed.

(** X13.  Starting a refresh keeps every record on display, clears the errors
    of the sync's providers and marks them loading. *)
Theorem refresh_start_keeps_rows providerIds shown s :
  snapshot shown (markLoading providerIds s) = snapshot shown s
  /\ providerErrors providerIds (markLoading providerIds s) = []
  /\ (providerIds <> [] -> anyLoading providerIds (markLoading providerIds s) = true).
Proof.
  split_and!.
  - apply allRecords_ext. intros id _. rewrite markLoading_lookup.
    destruct (bool_decide (id ∈ providerIds)); [|done]. done.
  - unfold providerErrors.
    assert (forall ids, (forall id, id ∈ ids -> id ∈ providerIds) ->
              omap (fun id =>
                      match st_providerEvents (markLoading providerIds s) !! id
                              ≫= panel_error with
                      | Some message => if String.eqb message "" then None else Some message
                      | None => None
                      end) ids = []) as H; [|by apply H].
    induction ids as [|id ids IH]; intros Hsub; [done|]. cbn [omap list_omap].
    rewrite markLoading_lookup, (bool_decide_eq_true_2 (id ∈ providerIds))
      by (apply Hsub; left).
    cbn. apply IH. intros id' Hid'. apply Hsub. by right.
  - destruct providerIds as [|id ids] eqn:E; [done|]. intros _. rewrite <- E.
    unfold anyLoading. apply existsb_exists. exists id.
    split; [rewrite E; by left|]. rewrite markLoading_lookup.
    by rewrite (bool_decide_eq_true_2 (id ∈ providerIds)) by (rewrite E; left).
Qed.

Lemma settleAll_snoc outcomes outcome s :
  settleAll (outcomes ++ [outcome]) s
  = settleFetch false (fst outcome) (snd outcome) (settleAll outcomes s).
Proof. unfold settleAll. by rewrite fold_left_app. Qed.

Lemma settleFetch_not_loading id outcome s :
  exists panel,
    st_providerEvents (settleFetch false id outcome s) !! id = Some panel
    /\ panel_loading panel = false.
Proof. destruct outcome; cbn; rewrite lookup_insert_eq; eauto. Qed.

Lemma settleAll_not_loading outcomes s id :
  id ∈ fst <$> outcomes ->
  exists panel,
    st_providerEvents (settleAll outcomes s) !! id = Some panel
    /\ panel_loading panel = false.
Proof.
  induction outcomes as [|[id' outcome] outcomes IH] using rev_ind;
    [by intros ?%elem_of_nil|].
  rewrite settleAll_snoc, fmap_app. cbn [fst snd].
  destruct (decide (id = id')) as [->|Hne]; intros Hin.
  - apply settleFetch_not_loading.
  - rewrite settleFetch_other by done. apply IH.
    apply elem_of_app in Hin as [?|Hin]; [done|].
    by apply list_elem_of_singleton in Hin.
Qed.

(** X14.  Once the fetch of every provider of the sync has settled, with
    whatever outcome and in whatever order, nothing is loading. *)
Theorem all_settled_not_loading providerIds outcomes s :
  (forall id, id ∈ providerIds -> id ∈ fst <$> outcomes) ->
  anyLoading providerIds (settleAll outcomes s) = false.
Proof.
  intros Hall. unfold anyLoading. apply not_true_is_false.
  intros (id & Hid%list_elem_of_In & Hload)%existsb_exists.
  destruct (settleAll_not_loading outcomes s id (Hall id Hid)) as (panel & Hp & Hl).
  rewrite Hp in Hload. congruence.
Qed.

Lemma allRecords_no_data providerIds (events : gmap string ProviderPanelState) :
  (forall id panel, events !! id = Some panel -> panel_data panel = []) ->
  allRecords providerIds events = [].
Proof.
  intros H. unfold allRecords. induction providerIds as [|id ids IH]; [done|].
  cbn [flat_map]. rewrite IH, app_nil_r.
  destruct (events !! id) as [panel|] eqn:E; [|done]. by rewrite (H id panel E).
Qed.

(** X15.  After the modal was closed, providers whose fetches all fail
    contribute no record: the snapshot stays empty. *)
Theorem failures_after_reset_show_nothing providerIds shown outcomes s :
  forallb (fun outcome => isRejected (snd outcome)) outcomes = true ->
  snapshot shown (settleAll outcomes (markLoading providerIds (resetOnClose s))) = []
  /\ snapshot shown (resetOnClose s) = [].
Proof.
  intros Hrej. split.
  - apply allRecords_no_data.
    induction outcomes as [|[id' outcome] outcomes IH] using rev_ind.
    + intros id panel. cbn [settleAll fold_left]. rewrite markLoading_lookup. cbn.
      rewrite lookup_empty. destruct (bool_decide _); [|done]. by intros [= <-].
    + rewrite forallb_app in Hrej. apply andb_true_iff in Hrej as [Hrej Hlast].
      cbn in Hlast. rewrite andb_true_r in Hlast. destruct outcome as [|err]; [done|].
      specialize (IH Hrej). intros id panel. rewrite settleAll_snoc. cbn [fst snd].
      destruct (decide (id = id')) as [->|Hne].
      * rewrite settleFetch_rejected_panel. intros [= <-]. cbn.
        destruct (st_providerEvents _ !! id') as [panel'|] eqn:E; [|done].
        cbn. by apply (IH id').
      * rewrite settleFetch_other by done. apply IH.
  - apply allRecords_no_data. intros id panel. cbn. by rewrite lookup_empty.
Qed.

(** ** Handlers in sequence *)

Lemma filter_head_elem {A} (P : A -> bool) (l : list A) x :
  head (List.filter P l) = Some x -> x ∈ l /\ P x = true.
Proof.
  intros H. assert (x ∈ List.filter P l) as Hin.
  { destruct (List.filter P l); [done|]. injection H as ->. left. }
  apply list_elem_of_In, List.filter_In in Hin as [Hin HP].
  split; [by apply list_elem_of_In|done].
Qed.

(** X16.  Opening the editor and saving at once sends exactly one link request,
    for the first target on offer that is not the record's current
    canonical id, and occupies the action slot with the row's key. *)
Theorem start_then_submit options providerId providerEventId currentOrbitId target w :
  firstTarget options currentOrbitId = Some target -> target <> "" ->
  let w' := submitLink (onState (startLink options providerId providerEventId
                                   currentOrbitId) w) in
  w_network w' = w_network w ++ [ReqLink providerId providerEventId target]
  /\ currentOrbitId <> Some target
  /\ (exists option, option ∈ options /\ opt_id option = target)
  /\ st_actionState (w_state w') = Some (ActLink, actionKey providerId providerEventId)
  /\ st_actionError (w_state w') = None.
Proof.
  unfold firstTarget. intros Hfirst Hne. cbn zeta.
  destruct (head _) as [first|] eqn:Hhead; [|done]. injection Hfirst as <-.
  pose proof (filter_head_elem _ _ _ Hhead) as [Hin Hdiff].
  apply negb_true_iff in Hdiff.
  unfold startLink.
  destruct (List.filter _ options) as [|first' others] eqn:Hf; [done|].
  injection Hhead as ->.
  unfold submitLink, onState; cbn.
  apply eqb_false_iff in Hne. rewrite Hne, Hdiff. cbn.
  split_and!; [done| |by exists first|done|done].
  by apply strict_eq_false.
Qed.

Lemma settlement_state k outcome s : st_actionState (resume k outcome s) = None.
Proof.
  unfold resume. destruct (susp_request k), outcome; done.
Qed.

Lemma markLoading_actionState providerIds s :
  st_actionState (markLoading providerIds s) = st_actionState s.
Proof.
  revert s. induction providerIds as [|id ids IH]; intros s; [done|].
  unfold markLoading in *. cbn [fold_left]. by rewrite IH.
Qed.

Lemma step_kind event w : StepKind event w (step w event).
Proof.
  destruct event as [member|options member|orbitId| | |n outcome|ids|id outcome]; cbn.
  - unfold clickUnlink, unlinkDisabled.
    destruct (truthy (rec_orbit_event_id (mem_record member))) eqn:Ht; cbn [negb orb];
      [|by apply Quiet].
    destruct (isActionLoading _ _ _); [by apply Quiet|].
    eapply Sent; try done. intros p e [= <- <-]. cbn. rewrite Ht. left.
  - unfold clickLink. destruct (linkDisabled _ _ _); [by apply Quiet|].
    apply Quiet; try done. unfold startLink. cbn. by destruct (List.filter _ _).
  - destruct (st_linkEditor (w_state w)); by apply Quiet.
  - unfold clickSave. destruct (st_linkEditor (w_state w)) as [le|] eqn:Hle;
      [|by apply Quiet].
    destruct (isActionLoading _ _ _); [by apply Quiet|].
    unfold submitLink. rewrite Hle.
    destruct (String.eqb (st_linkTargetOrbit (w_state w)) "") eqn:Et; cbn [orb];
      [by apply Quiet|].
    destruct (strict_eq _ _); [by apply Quiet|].
    eapply Sent; try done. cbn. by rewrite Et.
  - destruct (st_linkEditor (w_state w)); by apply Quiet.
  - unfold settle. destruct (w_pending w !! n) as [k|] eqn:Hk; [|by apply Quiet].
    apply (Finished _ _ _ n); [done..|].
    apply settlement_state.
  - apply Quiet; [done..|]. apply markLoading_actionState.
  - apply Quiet; [done..|]. by destruct outcome.
Qed.

(** ** Histories of events *)

Lemma run_snoc events event w : run (events ++ [event]) w = step (run events w) event.
Proof. unfold run. by rewrite fold_left_app. Qed.

Lemma historyInvariant_step events event w :
  historyInvariant events w -> historyInvariant (events ++ [event]) (step w event).
Proof.
  intros (Hwf & Hun & Hpend & Hbusy).
  unfold historyInvariant, unlinkClicks. rewrite omap_app. fold (unlinkClicks events).
  fold (unlinkClicks [event]).
  destruct (step_kind event w) as [Hn Hp Ha|request k Hn Hp Hk Ha Hr Hu|n Hn Hp Ha].
  - rewrite Hn, Hp, Ha. split_and!; [done| |done..].
    intros p e Hin. apply elem_of_app. left. by apply Hun.
  - rewrite Hn, Hp. split_and!.
    + apply Forall_app. split; [done|]. by constructor.
    + intros p e [Hin|Hin]%elem_of_app; apply elem_of_app.
      * left. by apply Hun.
      * right. apply list_elem_of_singleton in Hin. rewrite Hin. by apply (Hu p e).
    + apply Forall_app. split.
      * eapply Forall_impl; [exact Hpend|]. intros k' Hk'. apply elem_of_app. by left.
      * constructor; [|constructor]. rewrite Hk. apply elem_of_app. right. left.
    + intros _ E. by destruct (w_pending w).
  - rewrite Hn, Hp, Ha. split_and!; [done| | |done].
    + intros p e Hin. apply elem_of_app. left. by apply Hun.
    + apply Forall_app. split; [by apply Forall_take | by apply Forall_drop].
Qed.

Lemma run_invariant events : historyInvariant events (run events idleWorld).
Proof.
  induction events as [|event events IH] using rev_ind.
  - split_and!; [constructor | by intros p e ?%elem_of_nil | constructor | done].
  - rewrite run_snoc. by apply historyInvariant_step.
Qed.

(** X17.  Whatever the user does and however the requests settle, the action
    slot (the spinner and the disabled button) is occupied only while
    some request is still waiting for its answer. *)
Theorem busy_only_while_pending events :
  st_actionState (w_state (run events idleWorld)) <> None ->
  w_pending (run events idleWorld) <> [].
Proof. apply run_invariant. Qed.

(** X18.  Whatever the user does, no link request is sent without a target, and
    every unlink request sent answers a click on the Unlink button of a
    record that has a canonical id; every waiting handler waits for a
    request that was sent. *)
Theorem requests_well_formed events :
  Forall (fun request => wellFormed request = true) (w_network (run events idleWorld))
  /\ (forall p e, ReqUnlink p e ∈ w_network (run events idleWorld) ->
        ReqUnlink p e ∈ unlinkClicks events)
  /\ Forall (fun k => susp_request k ∈ w_network (run events idleWorld))
            (w_pending (run events idleWorld)).
Proof.
  destruct (run_invariant events) as (Hwf & Hun & Hpend & _). done.
Qed.

(** * Scenarios *)

(** Scenario A and B of the specification: one group for the canonical
    event with two providers, one synthetic-keyed group for the record
    fetched twice, both suspected collisions. *)
Example scenario_groups :
  (fun g => (grp_key g, grp_suspectCollision g, grp_providerCount g,
             mem_duplicateCount <$> grp_members g))
    <$> sampleGroups scenarioFlows scenarioRows
  = [("orbit-1", true, 2%nat, [1%nat; 1%nat]);
     ("unlinked:apple:evt-42", true, 1%nat, [2%nat; 2%nat])].
Proof. vm_compute. reflexivity. Qed.

(** Scenario C: a canonical id without flow record still groups, with an
    unmapped direction. *)
Example scenario_unmapped :
  (fun g => (grp_key g, mem_directionLabel <$> grp_members g))
    <$> sampleGroups ∅ [("apple", sampleRecord (Some "orbit-2") "evt-7" "apple" None)]
  = [("orbit-2", [Unmapped])].
Proof. vm_compute. reflexivity. Qed.

Lemma scenarioGroup_elem : scenarioGroup ∈ sampleGroups scenarioFlows scenarioRows.
Proof. vm_compute. left. Qed.

Lemma duplicateGroup_elem : duplicateGroup ∈ sampleGroups scenarioFlows scenarioRows.
Proof. vm_compute. right. left. Qed.

(** [suspectCollision_iff] at the canonical group of the scenario. *)
Lemma suspectCollision_iff_witness :
  scenarioGroup ∈ sampleGroups scenarioFlows scenarioRows
  /\ plainProviderIds scenarioRows = true
  /\ ((1 < length (grp_members scenarioGroup))%nat
      \/ exists member, member ∈ grp_members scenarioGroup
                        /\ (1 < mem_duplicateCount member)%nat)
  /\ (forall member, member ∈ grp_members scenarioGroup ->
        mem_duplicateCount member
        = samePair (mem_providerId member) (rec_provider_event_id (mem_record member))
            scenarioRows).
Proof.
  destruct (suspectCollision_iff sampleDateParse sampleFormat sampleCompare ∅ ∅
              scenarioFlows scenarioRows scenarioGroup scenarioGroup_elem)
    as (Hiff & _ & Hpair).
  split_and!.
  - exact scenarioGroup_elem.
  - reflexivity.
  - apply Hiff. reflexivity.
  - apply Hpair. reflexivity.
Defined.

(** The claim of C2 fails when two different pairs share a counting key:
    each group has one member whose pair occurs once in the snapshot, yet
    the stored duplicate count is 2 and the group is flagged. *)
Lemma duplicateCount_not_literal :
  (fun g => (grp_suspectCollision g, length (grp_members g),
             (fun member =>
                (mem_providerId member, rec_provider_event_id (mem_record member),
                 mem_duplicateCount member,
                 samePair (mem_providerId member)
                          (rec_provider_event_id (mem_record member)) collidingCountRows))
               <$> grp_members g))
    <$> sampleGroups ∅ collidingCountRows
  = [(true, 1%nat, [("cal", ":1", 2%nat, 1%nat)]);
     (true, 1%nat, [("cal:", "1", 2%nat, 1%nat)])].
Proof. vm_compute. reflexivity. Qed.

(** [latestTimestamp_max] at the canonical group of the scenario. *)
Lemma latestTimestamp_max_witness :
  scenarioGroup ∈ sampleGroups scenarioFlows scenarioRows
  /\ exists member,
       member ∈ grp_members scenarioGroup
       /\ grp_latestTimestamp scenarioGroup
          = recordTimestamp sampleDateParse scenarioFlows (mem_record member).
Proof.
  split; [exact scenarioGroup_elem|].
  apply (latestTimestamp_max sampleDateParse sampleFormat sampleCompare ∅ ∅
           scenarioFlows scenarioRows scenarioGroup scenarioGroup_elem).
Defined.

(** The claim of C8 fails for timestamps before the epoch: the only known
    timestamp of the group is -1000, the latest timestamp computed is 0. *)
Lemma latestTimestamp_not_earliest :
  (fun g => (grp_latestTimestamp g,
             latestActivityAt sampleDateParse ∅ (grp_members g)))
    <$> sampleGroups ∅ earlyRows
  = [(0, Some (-1000))].
Proof. vm_compute. reflexivity. Qed.

(** [groups_homogeneous] at the two groups of the scenario. *)
Lemma groups_homogeneous_witness :
  (scenarioGroup ∈ sampleGroups scenarioFlows scenarioRows
   /\ grp_members scenarioGroup <> []
   /\ grp_key scenarioGroup = "orbit-1"
   /\ (1 <= grp_providerCount scenarioGroup <= length (grp_members scenarioGroup))%nat
   /\ plainOrbitIds scenarioRows = true
   /\ Forall (fun member => rec_orbit_event_id (mem_record member) = Some "orbit-1")
             (grp_members scenarioGroup))
  /\ (duplicateGroup ∈ sampleGroups scenarioFlows scenarioRows
      /\ plainProviderIds scenarioRows = true
      /\ grp_orbitEventId duplicateGroup = None
      /\ exists providerId providerEventId,
           Forall (fun member =>
                     mem_providerId member = providerId
                     /\ rec_provider_event_id (mem_record member) = providerEventId
                     /\ rec_orbit_event_id (mem_record member) = None)
                  (grp_members duplicateGroup)).
Proof.
  split.
  - destruct (groups_homogeneous sampleDateParse sampleFormat sampleCompare ∅ ∅
                scenarioFlows scenarioRows scenarioGroup scenarioGroup_elem)
      as (Hmembers & Hkey & _ & Hcount & Hlinked & _).
    split_and!; [exact scenarioGroup_elem | exact Hmembers | exact (Hkey "orbit-1" eq_refl)
                 | apply Hcount | apply Hcount | reflexivity |].
    apply Forall_forall. intros member Hmember.
    exact (Hlinked eq_refl "orbit-1" eq_refl member Hmember).
  - destruct (groups_homogeneous sampleDateParse sampleFormat sampleCompare ∅ ∅
                scenarioFlows scenarioRows duplicateGroup duplicateGroup_elem)
      as (_ & _ & _ & _ & _ & Hunlinked).
    split_and!; [exact duplicateGroup_elem | reflexivity | reflexivity |].
    destruct (Hunlinked eq_refl eq_refl eq_refl) as (providerId & providerEventId & H).
    exists providerId, providerEventId. apply Forall_forall. exact H.
Defined.

(** The claim of C10 fails when two different unlinked pairs share a
    synthetic key: one group without canonical id holds both.  It also
    fails when a canonical id reads like a synthetic key: the group of
    that canonical id holds a record without canonical id. *)
Lemma synthetic_key_collision :
  (fun g => (grp_key g, grp_orbitEventId g,
             (fun member => (mem_providerId member,
                             rec_provider_event_id (mem_record member)))
               <$> grp_members g))
    <$> sampleGroups ∅ collidingKeyRows
  = [("unlinked:a:b:c", None, [("a", "b:c"); ("a:b", "c")])]
  /\ (fun g => (grp_key g, grp_orbitEventId g,
                (fun member => rec_orbit_event_id (mem_record member)) <$> grp_members g))
       <$> sampleGroups ∅ syntheticIdRows
     = [("unlinked:a:b", Some "unlinked:a:b", [Some "unlinked:a:b"; None])].
Proof. vm_compute. split; reflexivity. Qed.

(** [direction_resolution] on both sides of the scenario's flow. *)
Lemma direction_resolution_witness :
  resolveDirection sampleFormat ∅ ∅ "apple"
    (flowOf scenarioFlows (sampleRecord (Some "orbit-1") "evt-1" "apple" None))
  = (Outbound, Some (counterpartOf sampleFormat ∅ ∅ "skylight"))
  /\ resolveDirection sampleFormat ∅ ∅ "skylight"
       (flowOf scenarioFlows (sampleRecord (Some "orbit-1") "sky-9" "skylight" None))
     = (Inbound, Some (counterpartOf sampleFormat ∅ ∅ "apple"))
  /\ counterpartOf sampleFormat ∅ ∅ "skylight" = "skylight".
Proof.
  split_and!.
  - destruct (direction_resolution sampleFormat ∅ ∅ scenarioFlows scenarioRows "apple"
                (sampleRecord (Some "orbit-1") "evt-1" "apple" None))
      as (_ & _ & _ & Hout & _).
    apply (Hout scenarioFlow); reflexivity.
  - destruct (direction_resolution sampleFormat ∅ ∅ scenarioFlows scenarioRows "skylight"
                (sampleRecord (Some "orbit-1") "sky-9" "skylight" None))
      as (_ & _ & _ & _ & Hin & _).
    apply (Hin scenarioFlow); [reflexivity | discriminate | reflexivity].
  - destruct (direction_resolution sampleFormat ∅ ∅ scenarioFlows scenarioRows "apple"
                (sampleRecord (Some "orbit-1") "evt-1" "apple" None))
      as (_ & _ & _ & _ & _ & Hname).
    rewrite Hname. reflexivity.
Defined.

(** On the border of [direction_resolution]: a provider that is both the
    source and the target of a flow is Outbound, and a flow that names no
    target gives no counterpart. *)
Lemma direction_source_first :
  (strict_eq "apple" (ev_target_provider_id loopFlow),
   resolveDirection sampleFormat ∅ ∅ "apple" (Some loopFlow),
   resolveDirection sampleFormat ∅ ∅ "apple" (Some openFlow))
  = (true, (Outbound, Some "apple"), (Outbound, None)).
Proof. vm_compute. reflexivity. Qed.

(** [fetch_failure_isolated] for a provider failing on its first fetch. *)
Lemma fetch_failure_isolated_witness :
  "boom" ∈ providerErrors ["apple"]
             (settleFetch false "apple" (FetchRejected (Some "boom")) idleState)
  /\ allRecords ["apple"]
       (st_providerEvents (settleFetch false "apple" (FetchRejected (Some "boom")) idleState))
     = [].
Proof.
  destruct (fetch_failure_isolated ["apple"] "apple" (Some "boom") idleState)
    as (_ & _ & _ & Hnone & Herr & _).
  split.
  - apply Herr; [left | discriminate].
  - apply Hnone. reflexivity.
Defined.

(** The claim of C7 fails on a re-fetch: the provider whose fetch failed
    still contributes the record of its earlier successful fetch. *)
Lemma failed_provider_keeps_rows :
  (snapshot ["apple"] refetchFailed, providerErrors ["apple"] refetchFailed)
  = ([("apple", sampleRecord (Some "orbit-1") "evt-1" "apple" None)], ["boom"]).
Proof. vm_compute. reflexivity. Qed.



(** [settlement_effects] for an unlink that succeeds. *)
Lemma settlement_effects_witness :
  st_actionState (w_state (settle 0 Resolved (unlinkProviderEvent "apple" "evt-1" idleWorld)))
  = None
  /\ st_refreshTick (w_state (settle 0 Resolved
                                (unlinkProviderEvent "apple" "evt-1" idleWorld)))
     = 1%nat.
Proof.
  destruct (settlement_effects 0
              {| susp_request := ReqUnlink "apple" "evt-1"; susp_linkEditor := None |}
              Resolved (unlinkProviderEvent "apple" "evt-1" idleWorld) eq_refl)
    as (Hidle & _ & _ & Htick & _).
  split; [exact Hidle | exact Htick].
Defined.

(** The claim of C5 fails for a request that is rejected: the action slot
    is cleared and the message shown, but the refresh tick stays at 0, so
    no re-fetch is scheduled. *)
Lemma failed_unlink_schedules_no_refetch :
  (fun w => (w_network w, st_refreshTick (w_state w),
             st_refreshTick (w_state (settle 0 (Rejected (Some "boom")) w)),
             st_actionState (w_state (settle 0 (Rejected (Some "boom")) w)),
             st_actionError (w_state (settle 0 (Rejected (Some "boom")) w))))
    (unlinkProviderEvent "apple" "evt-1" idleWorld)
  = ([ReqUnlink "apple" "evt-1"], 0%nat, 0%nat, None, Some "boom").
Proof. vm_compute. reflexivity. Qed.

(** [same_key_guard]: a second click on the same Unlink button while the
    slot holds its key does nothing. *)
Lemma same_key_guard_witness :
  clickUnlink appleMember (clickUnlink appleMember idleWorld)
  = clickUnlink appleMember idleWorld.
Proof.
  apply (proj1 (same_key_guard appleMember (clickUnlink appleMember idleWorld))).
  reflexivity.
Defined.

(** The claim of C4 fails once another key has taken the slot: after
    Unlink on the apple row and Unlink on the skylight row, the apple
    request is still in flight, its button is enabled again, and a further
    click sends a second request for the same key.  Two direct calls of
    the handler send two requests as well. *)
Lemma second_unlink_is_sent :
  (inFlight (ReqUnlink "apple" "evt-1")
     (clickUnlink skylightMember (clickUnlink appleMember idleWorld)),
   issued (ReqUnlink "apple" "evt-1")
     (clickUnlink skylightMember (clickUnlink appleMember idleWorld)),
   issued (ReqUnlink "apple" "evt-1")
     (clickUnlink appleMember
        (clickUnlink skylightMember (clickUnlink appleMember idleWorld))),
   issued (ReqUnlink "apple" "evt-1")
     (unlinkProviderEvent "apple" "evt-1"
        (unlinkProviderEvent "apple" "evt-1" idleWorld)))
  = (true, 1%nat, 2%nat, 2%nat).
Proof. vm_compute. reflexivity. Qed.

(** ** Instances of the further properties *)

Lemma first_seen_wins_witness :
  exists first,
    List.find (fun row => String.eqb (keyOf row) (grp_key scenarioGroup)) scenarioRows
    = Some first
    /\ grp_title scenarioGroup = rec_title (snd first).
Proof.
  destruct (first_seen_wins sampleDateParse sampleFormat sampleCompare ∅ ∅
              scenarioFlows scenarioRows scenarioGroup scenarioGroup_elem)
    as (first & Hfind & _ & Htitle & _).
  exists first. by split.
Defined.

Lemma loneGroup_elem : loneGroup ∈ sampleGroups ∅ loneRows.
Proof. vm_compute. left. Qed.

Lemma unflagged_group_single_witness :
  exists member,
    grp_members loneGroup = [member] /\ mem_duplicateCount member = 1%nat.
Proof.
  apply (unflagged_group_single sampleDateParse sampleFormat sampleCompare ∅ ∅ ∅
           loneRows loneGroup loneGroup_elem).
  reflexivity.
Defined.

Lemma scenarioGroupByLength_elem :
  scenarioGroupByLength
    ∈ groups sampleDateParse sampleFormat lengthCompare ∅ ∅ scenarioFlows scenarioRows.
Proof. vm_compute. left. Qed.

Lemma members_sorted_by_name_witness :
  StronglySorted
    (fun a b => lengthCompare (mem_providerName a) (mem_providerName b) <= 0)
    (grp_members scenarioGroupByLength).
Proof.
  apply (members_sorted_by_name sampleDateParse sampleFormat lengthCompare ∅ ∅
           scenarioFlows scenarioRows scenarioGroupByLength).
  - intros a b. unfold lengthCompare. lia.
  - intros a b c. unfold lengthCompare. lia.
  - exact scenarioGroupByLength_elem.
Defined.

Lemma linkCount_is_providerCount_witness :
  Forall (fun member => mem_orbitLinkCount member = 2%nat) (grp_members scenarioGroup).
Proof.
  apply Forall_forall.
  apply (linkCount_is_providerCount sampleDateParse sampleFormat sampleCompare ∅ ∅
           scenarioFlows scenarioRows scenarioGroup "orbit-1"
           eq_refl scenarioGroup_elem eq_refl).
  discriminate.
Defined.

Lemma direction_text_names_counterpart_witness :
  mem_directionText
    (buildMember sampleFormat ∅ ∅ scenarioFlows scenarioRows "apple"
       (sampleRecord (Some "orbit-1") "evt-1" "apple" None))
  = "Outbound → " +:+ counterpartOf sampleFormat ∅ ∅ "skylight".
Proof.
  apply (direction_text_names_counterpart sampleFormat ∅ ∅ scenarioFlows scenarioRows
           "apple" (sampleRecord (Some "orbit-1") "evt-1" "apple" None)
           scenarioFlow "skylight"); [reflexivity | discriminate | reflexivity..].
Defined.


Lemma all_settled_not_loading_witness :
  anyLoading ["apple"; "skylight"]
    (settleAll sampleOutcomes (markLoading ["apple"; "skylight"] idleState))
  = false.
Proof.
  apply all_settled_not_loading. intros id Hid.
  apply elem_of_cons in Hid as [->|Hid]; [right; left|].
  apply list_elem_of_singleton in Hid as ->. left.
Defined.

Lemma failures_after_reset_show_nothing_witness :
  snapshot ["apple"; "skylight"]
    (settleAll [("apple", FetchRejected (Some "boom")); ("skylight", FetchRejected None)]
       (markLoading ["apple"; "skylight"] (resetOnClose refetchFailed)))
  = [].
Proof.
  apply (failures_after_reset_show_nothing ["apple"; "skylight"] ["apple"; "skylight"]
           [("apple", FetchRejected (Some "boom")); ("skylight", FetchRejected None)]
           refetchFailed).
  reflexivity.
Defined.

Lemma start_then_submit_witness :
  w_network (submitLink (onState (startLink sampleOptions "apple" "evt-1" (Some "orbit-1"))
                                 idleWorld))
  = [ReqLink "apple" "evt-1" "orbit-2"].
Proof.
  apply (start_then_submit sampleOptions "apple" "evt-1" (Some "orbit-1") "orbit-2"
           idleWorld); [reflexivity | discriminate].
Defined.

Lemma busy_only_while_pending_witness :
  w_pending (run [ClickUnlink appleMember; ClickLink sampleOptions skylightMember]
                 idleWorld) <> [].
Proof.
  apply busy_only_while_pending. discriminate.
Defined.
